(** * pointer-cache: a shallow embedding of the cache store, its FIFO key
    manager and the deep size estimator, with the properties of the
    specification stated over them.

    Source files embedded here:
    - [cache.go]      : the store ([cache], [Item], Set/Add/Replace/Delete/...)
    - the key manager : interface [KeyManager], the [queue] and the [noop]
    - [utils.go]      : [DeepSize] / [valueSize]
    - the constructor : [New], [newCache]

    Conventions.  Go's [int64] and [uintptr] are modelled as [Z] with the
    wrap-around of every addition and subtraction written out.  A Go
    [(value, bool)] pair is an [option]; a Go [error] is its message, [None]
    being [nil].  [time.Now().UnixNano()] is an explicit argument [now] of
    every operation that reads the clock; the loop of [set], which reads
    it at every turn, is also given over a clock [nat -> Z] of successive
    readings.  Loops that the source does not bound take a [fuel] and
    return [None] when it runs out. *)

From Stdlib Require Import ZArith Lia.
From stdpp Require Import base option list numbers strings gmap.

Open Scope Z_scope.

(* ================================================================== *)
(** ** Machine integers *)
(* ================================================================== *)

Module Int64.
Definition min_int : Z := - 2 ^ 63.
Definition max_int : Z := 2 ^ 63 - 1.

  (** Two's complement reduction to the [int64] range. *)
Definition wrap (z : Z) : Z := (z + 2 ^ 63) mod 2 ^ 64 - 2 ^ 63.

Definition add (a b : Z) : Z := wrap (a + b).
Definition sub (a b : Z) : Z := wrap (a - b).

Definition in_range (z : Z) : Prop := min_int <= z <= max_int.
End Int64.

Module Uintptr.
  (** 64-bit platform: [^uintptr(0)] is [2^64 - 1]. *)
Definition bits : Z := 64.
Definition max_uint : Z := 2 ^ bits - 1.
Definition wrap (z : Z) : Z := z mod 2 ^ bits.
Definition add (a b : Z) : Z := wrap (a + b).
Definition sub (a b : Z) : Z := wrap (a - b).
Definition mul (a b : Z) : Z := wrap (a * b).
End Uintptr.

(** [PtrSize = (32 << uintptr(^uintptr(0)>>63)) / 8] *)
Definition PtrSize : Z :=
  Z.shiftl 32 (Z.shiftr Uintptr.max_uint 63) / 8.

(** Go errors, identified with their message. *)
Definition error : Type := string.

(* ================================================================== *)
(** ** Package keymanager *)
(* ================================================================== *)

(** [type KeyManager interface { Add; Size; Delete; Peek }].  Methods that
    mutate the receiver return the new receiver. *)
Class KeyManager (K : Type) : Type := {
  km_Add : K -> string -> bool * K;
  km_Size : K -> Z;
  km_Delete : K -> string -> K;
  km_Peek : K -> string * option error;
}.

Definition errEmptyQueue : error := "queue is empty"%string.

(** [type queue struct { size uint32; array []string }] *)
Record queue : Type := mkQueue {
  q_size : Z;
  q_array : list string;
}.

Definition NewQueue (size : Z) : queue :=
  {| q_size := size; q_array := [] |}.

Definition queue_Size (p : queue) : Z := Z.of_nat (length (q_array p)).

Definition queue_IsEmpty (p : queue) : bool := bool_decide (queue_Size p = 0).

Definition queue_Enqueue (p : queue) (values : list string) : queue :=
  {| q_size := q_size p; q_array := q_array p ++ values |}.

Definition queue_Add (p : queue) (key : string) : bool * queue :=
  if bool_decide (q_size p <> 0) && bool_decide (queue_Size p >= q_size p)
  then (false, p)
  else (true, queue_Enqueue p [key]).

(** [remove]: drops the first element equal to [item], if any. *)
Fixpoint remove {T : Type} `{EqDecision T} (l : list T) (item : T) : list T :=
  match l with
  | [] => []
  | other :: rest =>
      if decide (other = item) then rest else other :: remove rest item
  end.

Definition queue_Delete (p : queue) (key : string) : queue :=
  {| q_size := q_size p; q_array := remove (q_array p) key |}.

Definition queue_Clear (p : queue) : queue :=
  {| q_size := q_size p; q_array := [] |}.

Definition queue_Dequeue (p : queue) : queue * (string * option error) :=
  match q_array p with
  | [] => (p, (""%string, Some errEmptyQueue))
  | res :: rest => ({| q_size := q_size p; q_array := rest |}, (res, None))
  end.

Definition queue_Shift (p : queue) : queue * (string * option error) :=
  queue_Dequeue p.

Definition queue_Peek (p : queue) : string * option error :=
  if queue_IsEmpty p then (""%string, Some errEmptyQueue)
  else match q_array p with
       | res :: _ => (res, None)
       | [] => (""%string, Some errEmptyQueue)
       end.

Definition queue_GetValues (p : queue) : list string := q_array p.

#[export] Instance queue_KeyManager : KeyManager queue := {|
  km_Add := queue_Add;
  km_Size := queue_Size;
  km_Delete := queue_Delete;
  km_Peek := queue_Peek;
|}.

(** [type noop struct{}] *)
Inductive noop : Type := Noop.

Definition NewNoopManager : noop := Noop.

#[export] Instance noop_KeyManager : KeyManager noop := {|
  km_Add := fun p _ => (true, p);
  km_Size := fun _ => 0;
  km_Delete := fun p _ => p;
  km_Peek := fun _ => (""%string, None);
|}.

Definition NewKeyManager (holder : string) (size : Z) : queue + error :=
  let size := if decide (size = 0) then 0 else size in
  if bool_decide (holder = ""%string) || bool_decide (holder = "queue"%string)
  then inl (NewQueue size)
  else inr "unsupported key manager"%string.

(* ================================================================== *)
(** ** utils.go: the deep size estimator *)
(* ================================================================== *)

(** Addresses as [v.Pointer()] reports them; [0] is nil. *)
Definition addr : Type := Z.

(** What [reflect] shows of a Go value, as far as [valueSize] looks: its
    kind, the static size of its type, and for the reference kinds the
    address of what they refer to.  Kinds that [valueSize] does not
    inspect (numbers, booleans, arrays, interfaces, channels, functions)
    are [VOther] with [v.Type().Size()]. *)
Inductive value : Type :=
  | VOther (size : Z)
  | VString (len : Z)
  | VPtr (p : addr)
  | VSlice (arr : addr) (len cap : Z)
  | VMap (zk zv : Z) (m : addr)
  | VStruct (size : Z) (fields : list value).

(** The memory a value graph lives in: the targets of pointers, the
    backing arrays of slices, and the entries of maps (in the order
    [MapKeys] yields them). *)
Record heap : Type := mkHeap {
  pointee : gmap addr value;
  arrays : gmap addr (list value);
  hmaps : gmap addr (list (value * value));
}.

Definition empty_heap : heap :=
  {| pointee := ∅; arrays := ∅; hmaps := ∅ |}.

(** [v.Type().Size()] on a 64-bit platform. *)
Definition typeSize (v : value) : Z :=
  match v with
  | VOther size => size
  | VString _ => 2 * PtrSize
  | VPtr _ => PtrSize
  | VSlice _ _ _ => 3 * PtrSize
  | VMap _ _ _ => PtrSize
  | VStruct size _ => size
  end.

(** [v.Elem()] of a non-nil pointer. *)
Definition elemOf (h : heap) (p : addr) : value :=
  default (VOther 0) (pointee h !! p).

(** [v.Index(0)], ..., [v.Index(v.Len()-1)] of a slice. *)
Definition indexOf (h : heap) (arr : addr) (len : Z) : list value :=
  take (Z.to_nat len) (default [] (arrays h !! arr)).

(** The key/value pairs of a map, [MapKeys] with [MapIndex]. *)
Definition entriesOf (h : heap) (m : addr) : list (value * value) :=
  default [] (hmaps h !! m).

(** [base += rec(v, seen)] for each [v] of [vs], threading [seen]. *)
Fixpoint addSizes (rec : value -> gset addr -> option (Z * gset addr))
    (vs : list value) (base : Z) (seen : gset addr) : option (Z * gset addr) :=
  match vs with
  | [] => Some (base, seen)
  | v :: vs =>
      match rec v seen with
      | None => None
      | Some (n, seen) => addSizes rec vs (Uintptr.add base n) seen
      end
  end.

(** One iteration of the [reflect.Struct] loop: what field [f] adds. *)
Definition fieldSize (rec : value -> gset addr -> option (Z * gset addr))
    (h : heap) (f : value) (seen : gset addr) : option (Z * gset addr) :=
  match f with
  | VPtr p =>
      if bool_decide (p ∉ seen) && bool_decide (p <> 0)
      then rec (elemOf h p) ({[p]} ∪ seen)
      else Some (0, seen)
  | VSlice _ _ _ => rec f seen
  | _ => Some (0, seen)
  end.

Section Estimator.
  (** The bucket count of a map, the floating point expression
      [uintptr(math.Pow(2, math.Ceil(math.Log(float64(v.Len())/6.5)/math.Log(2))))],
      as a function of [v.Len()]. *)
Variable mapBuckets : Z -> Z.

Fixpoint valueSize (fuel : nat) (h : heap) (v : value) (seen : gset addr)
      : option (Z * gset addr) :=
    match fuel with
    | O => None
    | S fuel =>
        let base := typeSize v in
        match v with
        | VPtr p =>
            if bool_decide (p ∉ seen) && bool_decide (p <> 0)
            then match valueSize fuel h (elemOf h p) ({[p]} ∪ seen) with
                 | None => None
                 | Some (n, seen) => Some (Uintptr.add base n, seen)
                 end
            else Some (base, seen)
        | VSlice arr n cap =>
            match addSizes (valueSize fuel h) (indexOf h arr n) base seen with
            | None => None
            | Some (base, seen) =>
                if decide (cap > n)
                then Some (Uintptr.add base
                             (Uintptr.mul (typeSize v) (Uintptr.wrap (cap - n))),
                           seen)
                else Some (base, seen)
            end
        | VMap zk zv m =>
            let entries := entriesOf h m in
            let len := Z.of_nat (length entries) in
            let nb := mapBuckets len in
            let nb := if decide (nb = 0) then 1 else nb in
            let base := Uintptr.mul 16 nb in
            match addSizes (valueSize fuel h)
                    (flat_map (fun kv => [kv.1; kv.2]) entries) base seen with
            | None => None
            | Some (base, seen) =>
                Some (Uintptr.add base
                        (Uintptr.mul (Uintptr.sub (Uintptr.mul 8 nb) len)
                                     (Uintptr.add zk zv)),
                      seen)
            end
        | VStruct _ fields =>
            addSizes (fieldSize (valueSize fuel h) h) fields base seen
        | VString len => Some (Uintptr.add base len, seen)
        | VOther _ => Some (base, seen)
        end
    end.

  (** [DeepSize]: a fresh [seen], and the conversion to [int64]. *)
Definition DeepSize (fuel : nat) (h : heap) (v : value) : option Z :=
    match valueSize fuel h v ∅ with
    | None => None
    | Some (n, _) => Some (Int64.wrap n)
    end.
End Estimator.

(** The graph with every pointer to an address of [S] set to nil. *)
Fixpoint sever (S : gset addr) (v : value) : value :=
  match v with
  | VPtr p => if bool_decide (p ∈ S) then VPtr 0 else VPtr p
  | VStruct size fields => VStruct size (map (sever S) fields)
  | _ => v
  end.

Definition sever_heap (S : gset addr) (h : heap) : heap :=
  {| pointee := sever S <$> pointee h;
     arrays := map (sever S) <$> arrays h;
     hmaps := map (fun kv => (sever S kv.1, sever S kv.2)) <$> hmaps h |}.

(** The bucket count with the logarithm taken exactly: the least power of
    two that is at least [len / 6.5], truncated to an integer. *)
Definition exactBuckets (len : Z) : Z :=
  if decide (len <= 6) then 0
  else 2 ^ Z.log2_up ((2 * len + 12) / 13).

(** [DeepSize] of a Go string: header plus length in bytes. *)
Definition DeepSize_string (k : string) : Z :=
  Int64.wrap (Uintptr.add (2 * PtrSize) (Z.of_nat (String.length k))).

(* ================================================================== *)
(** ** cache.go: the store *)
(* ================================================================== *)

Definition NoExpiration : Z := -1.
Definition ZeroExpiration : Z := 0.

(** [type Option struct] *)
Record Option : Type := mkOption {
  KeyManagerType : string;
  Capacity : Z;
  MemoryLimit : Z;
  CleanupInterval : Z;
  DefaultExpiration : Z;
}.

(** [type Item struct] *)
Record Item (V : Type) : Type := mkItem {
  Object : V;
  Expiration : Z;
  Mem : Z;
}.
Arguments mkItem {V} _ _ _.
Arguments Object {V} _.
Arguments Expiration {V} _.
Arguments Mem {V} _.

(** [func (item Item) Expired() bool] *)
Definition Item_Expired {V : Type} (item : Item V) (now : Z) : bool :=
  if decide (Expiration item = 0) then false
  else bool_decide (now > Expiration item).

(** [type cache struct]: the lock and the janitor are left out;
    [onEvicted] records whether the callback is non-nil; [opt] is the
    field [option]. *)
Record cache (V K : Type) : Type := mkCache {
  opt : Option;
  items : gmap string (Item V);
  onEvicted : bool;
  memUsage : Z;
  keyManager : K;
}.
Arguments mkCache {V K} _ _ _ _ _.
Arguments opt {V K} _.
Arguments items {V K} _.
Arguments onEvicted {V K} _.
Arguments memUsage {V K} _.
Arguments keyManager {V K} _.

Section Store.
Context {V K : Type} `{!KeyManager K}.
  (** [DeepSize(v)] of a stored value, an [int64]. *)
Variable DeepSizeV : V -> Z.

Implicit Types (p : cache V K) (k : string) (now d : Z).

Definition set_items p (m : gmap string (Item V)) : cache V K :=
    mkCache (opt p) m (onEvicted p) (memUsage p) (keyManager p).
Definition set_memUsage p (n : Z) : cache V K :=
    mkCache (opt p) (items p) (onEvicted p) n (keyManager p).
Definition set_keyManager p (km : K) : cache V K :=
    mkCache (opt p) (items p) (onEvicted p) (memUsage p) km.

Definition cache_Alloc p : Z := memUsage p.

Definition cache_Size p : Z := Z.of_nat (size (items p)).

Definition calculateItemSize k (v : V) : Z :=
    let memKey := DeepSize_string k in
    let memVals := DeepSizeV v in
    let memPointer := PtrSize in
    Int64.add (Int64.add memKey memVals) memPointer.

Definition cache_addMemUsage p (mem : Z) : cache V K :=
    set_memUsage p (Int64.add (memUsage p) mem).

Definition cache_deductMemUsage p (mem : Z) : cache V K :=
    let left := Int64.sub (memUsage p) mem in
    if decide (left < 0) then set_memUsage p 0 else set_memUsage p left.

  (** [delete]: the new store, and the pair the source returns. *)
Definition cache_delete p k : cache V K * (option V * bool) :=
    match items p !! k with
    | Some v =>
        let p := set_items p (delete k (items p)) in
        let p := cache_deductMemUsage p (Mem v) in
        let p := set_keyManager p (km_Delete (keyManager p) k) in
        (p, (Some (Object v), onEvicted p))
    | None => (p, (None, false))
    end.

Definition cache_getItem p now k : option (Item V) :=
    match items p !! k with
    | None => None
    | Some item =>
        if decide (Expiration item > 0) then
          if decide (now > Expiration item) then None else Some item
        else Some item
    end.

Definition cache_get p now k : option V :=
    match items p !! k with
    | None => None
    | Some item =>
        if decide (Expiration item > 0) then
          if decide (now > Expiration item) then None else Some (Object item)
        else Some (Object item)
    end.

  (** [Get]: the store is only read; it is returned to make that
      visible. *)
Definition cache_Get p now k : cache V K * option V :=
    match items p !! k with
    | None => (p, None)
    | Some item =>
        if decide (Expiration item > 0) then
          if decide (now > Expiration item) then (p, None)
          else (p, Some (Object item))
        else (p, Some (Object item))
    end.

  (** [GetWithExpiration]: the value with its expiration instant, [None]
      for the zero [time.Time]. *)
Definition cache_GetWithExpiration p now k : option (V * option Z) :=
    match items p !! k with
    | None => None
    | Some item =>
        if decide (Expiration item > 0) then
          if decide (now > Expiration item) then None
          else Some (Object item, Some (Expiration item))
        else Some (Object item, None)
    end.

  (** The [for requireSpace > 0] loop of [set]. *)
Fixpoint evictLoop (fuel : nat) p now (requireSpace : Z)
      : option (cache V K * option error) :=
    if decide (requireSpace > 0) then
      match fuel with
      | O => None
      | S fuel =>
          match km_Peek (keyManager p) with
          | (_, Some err) => Some (p, Some err)
          | (key, None) =>
              if decide (key = ""%string)
              then Some (p, Some "invalid key"%string)
              else match cache_getItem p now key with
                   | None => evictLoop fuel p now requireSpace
                   | Some item =>
                       evictLoop fuel (cache_delete p key).1 now
                         (Int64.sub requireSpace (Mem item))
                   end
          end
      end
    else Some (p, None).

  (** The capacity check of [set]: [inl] the store to go on with, [inr]
      the error returned. *)
Definition capacityCheck p : cache V K + error :=
    if decide (Capacity (opt p) > 0 /\ cache_Size p >= Capacity (opt p)) then
      match km_Peek (keyManager p) with
      | (_, Some err) => inr err
      | (key, None) => inl (cache_delete p key).1
      end
    else inl p.

  (** The absolute expiration [e] that [set] computes. *)
Definition expirationOf p now d : Z :=
    let d := if decide (d = ZeroExpiration)
             then DefaultExpiration (opt p) else d in
    if decide (d > 0) then Int64.add now d else 0.

  (** The memory check of [set], with its eviction loop. *)
Definition memoryCheck (fuel : nat) p now (size : Z)
      : option (cache V K * option error) :=
    if decide (MemoryLimit (opt p) > 0 /\
               Int64.add (memUsage p) size >= MemoryLimit (opt p))
    then evictLoop fuel p now
           (Int64.sub (Int64.add (memUsage p) size) (MemoryLimit (opt p)))
    else Some (p, None).

  (** The three writes that end [set]: the entry, the counter, the key
      manager. *)
Definition writeEntry p k (v : V) (e size : Z) : cache V K :=
    let p := set_items p (<[k := mkItem v e size]> (items p)) in
    let p := cache_addMemUsage p size in
    set_keyManager p (km_Add (keyManager p) k).2.

Definition cache_set (fuel : nat) p k (v : V) d now
      : option (cache V K * option error) :=
    let e := expirationOf p now d in
    let size := calculateItemSize k v in
    match capacityCheck p with
    | inr err => Some (p, Some err)
    | inl p =>
        match memoryCheck fuel p now size with
        | None => None
        | Some (p, Some err) => Some (p, Some err)
        | Some (p, None) => Some (writeEntry p k v e size, None)
        end
    end.

Definition cache_Set (fuel : nat) p k (v : V) d now
      : option (cache V K * option error) :=
    cache_set fuel p k v d now.

Definition cache_SetDefault (fuel : nat) p k (x : V) now
      : option (cache V K) :=
    fst <$> cache_Set fuel p k x (DefaultExpiration (opt p)) now.

Definition cache_Add (fuel : nat) p k (x : V) d now
      : option (cache V K * option error) :=
    match cache_get p now k with
    | Some _ => Some (p, Some ("Item " +:+ k +:+ " already exists")%string)
    | None => cache_set fuel p k x d now
    end.

  (** [Delete]: the new store and the call made to the callback. *)
Definition cache_Delete p k : cache V K * option (string * option V) :=
    let '(p, (v, evicted)) := cache_delete p k in
    (p, if evicted then Some (k, v) else None).

  (** One step of the [range p.items] loop of [DeleteExpired]. *)
Definition expireStep now (acc : cache V K * list (string * option V))
      (kv : string * Item V) : cache V K * list (string * option V) :=
    if decide (Expiration kv.2 > 0 /\ now > Expiration kv.2) then
      let '(p, (ov, evicted)) := cache_delete acc.1 kv.1 in
      (p, if evicted then acc.2 ++ [(kv.1, ov)] else acc.2)
    else acc.

  (** [DeleteExpired]: the new store and the calls made to the callback
      afterwards.  The map is ranged over in the order of [map_to_list]. *)
Definition cache_DeleteExpired p now
      : cache V K * list (string * option V) :=
    foldl (expireStep now) (p, []) (map_to_list (items p)).

Definition cache_Replace (fuel : nat) p k (x : V) d now
      : option (cache V K * option error) :=
    match cache_getItem p now k with
    | None => Some (p, Some ("Item " +:+ k +:+ " doesn't exist")%string)
    | Some item =>
        let p := cache_deductMemUsage p (Mem item) in
        match cache_set fuel p k x d now with
        | None => None
        | Some (p, Some err) => Some (p, Some err)
        | Some (p, None) =>
            let p := set_keyManager p (km_Delete (keyManager p) k) in
            let p := set_keyManager p (km_Add (keyManager p) k).2 in
            Some (p, None)
        end
    end.

Definition cache_Flush p : cache V K := set_items p ∅.

Definition cache_OnEvicted p (f : bool) : cache V K :=
    mkCache (opt p) (items p) f (memUsage p) (keyManager p).
End Store.

(** [WithKeyManager] replaces the key manager, whatever its type. *)
Definition cache_WithKeyManager {V K K' : Type} (p : cache V K) (manager : K')
    : cache V K' :=
  mkCache (opt p) (items p) (onEvicted p) (memUsage p) manager.

(** [newCache]: the key manager field is still nil. *)
Definition newCache {V : Type} (option : Option) (m : gmap string (Item V))
    : cache V unit :=
  mkCache option m false 0 ().

(** [New]; starting the janitor is left out. *)
Definition New {V : Type} (option : Option) (initData : gmap string (Item V))
    : cache V queue + error :=
  if decide (MemoryLimit option = 0) then inr "memory limit is required"%string
  else
    let _cache := newCache option initData in
    match NewKeyManager (KeyManagerType option) 0 with
    | inr err => inr err
    | inl keyManager => inl (cache_WithKeyManager _cache keyManager)
    end.

(* ================================================================== *)
(** ** Sequences of calls, and what the store is meant to maintain *)
(* ================================================================== *)

(** The public operations of the store. *)
Inductive op (V : Type) : Type :=
  | OpSet (k : string) (v : V) (d : Z)
  | OpAdd (k : string) (v : V) (d : Z)
  | OpReplace (k : string) (v : V) (d : Z)
  | OpDelete (k : string)
  | OpDeleteExpired
  | OpFlush
  | OpGet (k : string)
  | OpGetWithExpiration (k : string)
  | OpSize
  | OpAlloc.
Arguments OpSet {V} _ _ _.
Arguments OpAdd {V} _ _ _.
Arguments OpReplace {V} _ _ _.
Arguments OpDelete {V} _.
Arguments OpDeleteExpired {V}.
Arguments OpFlush {V}.
Arguments OpGet {V} _.
Arguments OpGetWithExpiration {V} _.
Arguments OpSize {V}.
Arguments OpAlloc {V}.

(** The operations that write to the store. *)
Definition mutating {V : Type} (o : op V) : bool :=
  match o with
  | OpSet _ _ _ | OpAdd _ _ _ | OpReplace _ _ _
  | OpDelete _ | OpDeleteExpired | OpFlush => true
  | _ => false
  end.

Section Calls.
Context {V K : Type} `{!KeyManager K}.
Variable DeepSizeV : V -> Z.

  (** The store after one call made at time [now]; results and errors
      are dropped. *)
Definition step (fuel : nat) (p : cache V K) (now : Z) (o : op V)
      : option (cache V K) :=
    match o with
    | OpSet k v d => fst <$> cache_Set DeepSizeV fuel p k v d now
    | OpAdd k v d => fst <$> cache_Add DeepSizeV fuel p k v d now
    | OpReplace k v d => fst <$> cache_Replace DeepSizeV fuel p k v d now
    | OpDelete k => Some (cache_Delete p k).1
    | OpDeleteExpired => Some (cache_DeleteExpired p now).1
    | OpFlush => Some (cache_Flush p)
    | OpGet k => Some (cache_Get p now k).1
    | OpGetWithExpiration _ | OpSize | OpAlloc => Some p
    end.

Fixpoint run (fuel : nat) (p : cache V K) (calls : list (Z * op V))
      : option (cache V K) :=
    match calls with
    | [] => Some p
    | (now, o) :: calls =>
        match step fuel p now o with
        | None => None
        | Some p => run fuel p calls
        end
    end.

  (** The number of bytes a call asks the store to account for. *)
Definition inserted (o : op V) : Z :=
    match o with
    | OpSet k v _ | OpAdd k v _ | OpReplace k v _ =>
        calculateItemSize DeepSizeV k v
    | _ => 0
    end.

Definition insertedTotal (calls : list (Z * op V)) : Z :=
    foldr (fun c acc => inserted c.2 + acc) 0 calls.
End Calls.

(** The sum of the recorded sizes of the stored entries. *)
Definition sumMem {V : Type} (m : gmap string (Item V)) : Z :=
  map_fold (fun _ item acc => Mem item + acc) 0 m.

(** The counter agrees with the entries. *)
Definition accounted {V K : Type} (p : cache V K) : Prop :=
  memUsage p = sumMem (items p).

(** The queue holds the keys of the entry map, each once. *)
Definition tracked {V : Type} (p : cache V queue) : Prop :=
  NoDup (q_array (keyManager p)) /\
  forall k, k ∈ q_array (keyManager p) <-> is_Some (items p !! k).

(** The store [New] returns for a non-zero memory limit, the default key
    manager and no initial data. *)
Definition fresh {V : Type} (option : Option) : cache V queue :=
  mkCache option ∅ false 0 (NewQueue 0).

(** Stored values of the examples: values of the estimator's model that
    refer to nothing, sized by [DeepSize]. *)
Definition sizeOf (v : value) : Z :=
  default 0 (DeepSize exactBuckets 8 empty_heap v).

(** [[4]int64{}], the value of the repository's tests. *)
Definition val : value := VOther 32.

(** The configuration of [TestFlush], [TestAdd] and [TestReplace], with
    the janitor switched off. *)
Definition option128 : Option :=
  {| KeyManagerType := ""; Capacity := 0; MemoryLimit := 128;
     CleanupInterval := 0; DefaultExpiration := 50000000 |}.

(** Twenty seconds, in nanoseconds. *)
Definition seconds20 : Z := 20000000000.

(** The counter is at most [n], and no entry records a negative size. *)
Definition bounded {V K : Type} (n : Z) (p : cache V K) : Prop :=
  0 <= memUsage p <= n /\
  map_Forall (fun _ item => 0 <= Mem item <= Int64.max_int) (items p).

(** The configuration of [TestDelete]: only the memory limit is given, so
    the default expiration is zero. *)
Definition option0 : Option :=
  {| KeyManagerType := ""; Capacity := 0; MemoryLimit := 222222;
     CleanupInterval := 0; DefaultExpiration := 0 |}.

(** A capacity of two entries and ample memory. *)
Definition optionCap2 : Option :=
  {| KeyManagerType := ""; Capacity := 2; MemoryLimit := 100000;
     CleanupInterval := 0; DefaultExpiration := 50000000 |}.

(** The store holding the one entry ["a"], as [Set("a", val, d)] at time
    [now] leaves a fresh store. *)
Definition store_a (option : Option) (now d : Z) : cache value queue :=
  mkCache option {[ "a"%string := mkItem val (now + d) 57 ]} false 57
    (mkQueue 0 ["a"%string]).

(** ** Value graphs of the examples *)

(** [type V struct { Z int; E *V }] of [TestCycles], the record living at
    address 4096: with [v.E = v], and with [v.E = nil]. *)
Definition h_cycle : heap :=
  {| pointee := {[ 4096 := VStruct 16 [VOther 8; VPtr 4096] ]};
     arrays := ∅; hmaps := ∅ |}.
Definition h_acyclic : heap :=
  {| pointee := {[ 4096 := VStruct 16 [VOther 8; VPtr 0] ]};
     arrays := ∅; hmaps := ∅ |}.

(** [type N struct { Kids []N }] with [n.Kids = make([]N, 1)] and
    [n.Kids[0] = n]: the one cell of the backing array at 4096 holds a
    record whose slice is that same array. *)
Definition h_loop : heap :=
  {| pointee := ∅;
     arrays := {[ 4096 := [VStruct 24 [VSlice 4096 1 1]] ]};
     hmaps := ∅ |}.
Definition v_loop : value := VStruct 24 [VSlice 4096 1 1].
(** The same record with [n.Kids = nil]. *)
Definition v_cut : value := VStruct 24 [VSlice 0 0 0].

(** [make([]struct{}, 0, 1<<60)]: no element, and a capacity that costs
    no memory since the elements have size zero. *)
Definition v_hollow : value := VSlice 4096 0 (2 ^ 60).

(** ** Vocabulary of the estimator's proofs *)

Abbreviation sizer := (value -> gset addr -> option (Z * gset addr)).

(** A sizer only ever adds to [seen]. *)
Definition growing (g : sizer) : Prop :=
  forall v seen n seen', g v seen = Some (n, seen') -> seen ⊆ seen'.

(** A graph of records and pointers only: no backing array, no map. *)
Definition recordsOnly (h : heap) : Prop := arrays h = ∅ /\ hmaps h = ∅.

(** The number of pointer targets not visited yet. *)
Definition unvisited (h : heap) (seen : gset addr) : nat :=
  size (dom (pointee h) ∖ seen).

(** ** Further vocabulary *)

(** [IsPointer]: whether the value's kind is [reflect.Pointer]. *)
Definition IsPointer (v : value) : bool :=
  match v with
  | VPtr _ => true
  | _ => false
  end.

(** The queue after [Add] has been called with each key in turn. *)
Definition addAll (q : queue) (keys : list string) : queue :=
  foldl (fun q key => (queue_Add q key).2) q keys.

(** What [Get], [getItem] and [DeleteExpired] test of an entry. *)
Definition expiredAt {V : Type} (now : Z) (item : Item V) : Prop :=
  Expiration item > 0 /\ now > Expiration item.

(** The counter is right: it is the sum of the recorded sizes, none of
    which is negative, and it fits an [int64]. *)
Definition accountedOK {V K : Type} (p : cache V K) : Prop :=
  accounted p /\
  map_Forall (fun _ item => 0 <= Mem item) (items p) /\
  memUsage p <= Int64.max_int.

(** Counter and queue both agree with the entry map, and the queue is
    unbounded, as [New] makes it. *)
Definition consistent {V : Type} (p : cache V queue) : Prop :=
  accountedOK p /\ tracked p /\ q_size (keyManager p) = 0.

(** Struct fields that [valueSize] does not follow: neither pointers nor
    slices. *)
Definition notChased (f : value) : Prop :=
  match f with
  | VPtr _ | VSlice _ _ _ => False
  | _ => True
  end.

(** A slice of three bytes with room for 1024: [make([]byte, 3, 1024)]. *)
Definition h_bytes : heap :=
  {| pointee := ∅;
     arrays := {[ 4096 := [VOther 1; VOther 1; VOther 1] ]};
     hmaps := ∅ |}.

(** The store after [Set("a", val, 20s)] and [Flush]: nothing stored, 57
    bytes counted, "a" queued. *)
Definition store_stale : cache value queue :=
  mkCache option128 ∅ false 57 (mkQueue 0 ["a"%string]).

(** The store of [TestWithKeyManager] after its two successful inserts:
    the no-op key manager, two entries of 57 bytes. *)
Definition store_noop : cache value noop :=
  mkCache option128
    (<["2"%string := mkItem val seconds20 57]>
       {[ "1"%string := mkItem val seconds20 57 ]})
    false 114 Noop.

(** Initial data for [New]: two entries. *)
Definition initData2 : gmap string (Item value) :=
  <["y"%string := mkItem val 0 57]> {[ "x"%string := mkItem val 0 57 ]}.

(** ** [set] with the clock read at every turn of its loop *)

Section StoreClock.
Context {V K : Type} `{!KeyManager K}.
Variable DeepSizeV : V -> Z.
Implicit Types (p : cache V K) (k : string) (now d : Z).

(** The [for requireSpace > 0] loop of [set], [getItem] reading the clock
    anew at every turn: [clock i] is what [time.Now().UnixNano()] returns
    at turn [i].  [evictLoop] is this loop under a clock that stands
    still. *)
Fixpoint evictLoopAt (fuel : nat) p (clock : nat -> Z) (i : nat)
    (requireSpace : Z) : option (cache V K * option error) :=
  if decide (requireSpace > 0) then
    match fuel with
    | O => None
    | S fuel =>
        match km_Peek (keyManager p) with
        | (_, Some err) => Some (p, Some err)
        | (key, None) =>
            if decide (key = ""%string)
            then Some (p, Some "invalid key"%string)
            else match cache_getItem p (clock i) key with
                 | None => evictLoopAt fuel p clock (S i) requireSpace
                 | Some item =>
                     evictLoopAt fuel (cache_delete p key).1 clock (S i)
                       (Int64.sub requireSpace (Mem item))
                 end
        end
    end
  else Some (p, None).

Definition memoryCheckAt (fuel : nat) p (clock : nat -> Z) (size : Z)
    : option (cache V K * option error) :=
  if decide (MemoryLimit (opt p) > 0 /\
             Int64.add (memUsage p) size >= MemoryLimit (opt p))
  then evictLoopAt fuel p clock 0
         (Int64.sub (Int64.add (memUsage p) size) (MemoryLimit (opt p)))
  else Some (p, None).

(** [set], the expiration computed from the reading [now] and the loop
    reading [clock]. *)
Definition cache_setAt (fuel : nat) p k (v : V) d now (clock : nat -> Z)
    : option (cache V K * option error) :=
  let e := expirationOf p now d in
  let size := calculateItemSize DeepSizeV k v in
  match capacityCheck p with
  | inr err => Some (p, Some err)
  | inl p =>
      match memoryCheckAt fuel p clock size with
      | None => None
      | Some (p, Some err) => Some (p, Some err)
      | Some (p, None) => Some (writeEntry p k v e size, None)
      end
  end.
End StoreClock.

(** [Set] of a value of the estimator's model living in heap [h]:
    [calculateItemSize] runs [DeepSize] on it before anything else is
    looked at, and [Set] does not return when [DeepSize] does not.
    [fuelSize] bounds the recursion of [DeepSize], [fuel] the turns of
    the loop. *)
Definition cache_SetDeep {K : Type} `{!KeyManager K} (mapBuckets : Z -> Z)
    (fuelSize fuel : nat) (h : heap) (p : cache value K) (k : string)
    (v : value) (d now : Z) (clock : nat -> Z)
    : option (cache value K * option error) :=
  match DeepSize mapBuckets fuelSize h v with
  | None => None
  | Some memVals => cache_setAt (fun _ => memVals) fuel p k v d now clock
  end.

(* ================================================================== *)
(** * Properties *)
(* ================================================================== *)

Lemma New_fresh {V : Type} (option : Option) :
  MemoryLimit option <> 0 ->
  KeyManagerType option = ""%string \/ KeyManagerType option = "queue"%string ->
  New (V := V) option ∅ = inl (fresh option).
Proof.
  intros Hm Hk. unfold New, NewKeyManager.
  destruct (decide (MemoryLimit option = 0)); [done|].
  destruct Hk as [-> | ->]; reflexivity.
Qed.

Lemma PtrSize_eq : PtrSize = 8.
Proof. reflexivity. Qed.

Lemma Int64_wrap_id (z : Z) : Int64.in_range z -> Int64.wrap z = z.
Proof.
  unfold Int64.in_range, Int64.min_int, Int64.max_int, Int64.wrap.
  intros H. rewrite Z.mod_small; lia.
Qed.

Lemma Int64_wrap_range (z : Z) : Int64.in_range (Int64.wrap z).
Proof.
  unfold Int64.in_range, Int64.min_int, Int64.max_int, Int64.wrap.
  pose proof (Z.mod_pos_bound (z + 2 ^ 63) (2 ^ 64)). lia.
Qed.

Lemma Int64_add_exact (a b : Z) :
  Int64.in_range (a + b) -> Int64.add a b = a + b.
Proof. apply Int64_wrap_id. Qed.

Lemma Int64_sub_exact (a b : Z) :
  Int64.in_range (a - b) -> Int64.sub a b = a - b.
Proof. apply Int64_wrap_id. Qed.

Lemma Int64_nonneg_in_range (z : Z) :
  0 <= z <= Int64.max_int -> Int64.in_range z.
Proof. unfold Int64.in_range, Int64.min_int, Int64.max_int. lia. Qed.

(* ------------------------------------------------------------------ *)
(** ** The store, for any key manager *)
(* ------------------------------------------------------------------ *)

Section StoreFacts.
Context {V K : Type} `{!KeyManager K}.
Variable DeepSizeV : V -> Z.
Implicit Types (p : cache V K) (k : string) (now d : Z).

Lemma cache_Flush_fields p :
    items (cache_Flush p) = ∅ /\
    memUsage (cache_Flush p) = memUsage p /\
    keyManager (cache_Flush p) = keyManager p.
  Proof. done. Qed.

Lemma cache_delete_items p k :
    items (cache_delete p k).1 = delete k (items p).
  Proof.
    unfold cache_delete. destruct (items p !! k) as [v|] eqn:Hk; simpl.
    - unfold cache_deductMemUsage. by destruct (decide _).
    - symmetry. by apply delete_id.
  Qed.

Lemma cache_delete_opt p k : opt (cache_delete p k).1 = opt p.
  Proof.
    unfold cache_delete. destruct (items p !! k) as [v|]; simpl; [|done].
    unfold cache_deductMemUsage. by destruct (decide _).
  Qed.

Lemma cache_delete_absent p k :
    items p !! k = None -> (cache_delete p k).1 = p.
  Proof. intros Hk. unfold cache_delete. by rewrite Hk. Qed.

  (** The eviction loop makes no progress when the key it is handed is
      not a live entry: it asks again, for ever. *)
Lemma evictLoop_spins (fuel : nat) p now (requireSpace : Z) key :
    requireSpace > 0 ->
    km_Peek (keyManager p) = (key, None) ->
    key <> ""%string ->
    cache_getItem p now key = None ->
    evictLoop fuel p now requireSpace = None.
  Proof.
    intros Hr Hpeek Hkey Hget.
    induction fuel as [|fuel IH]; simpl.
    - destruct (decide (requireSpace > 0)); [done | lia].
    - destruct (decide (requireSpace > 0)); [|lia].
      rewrite Hpeek. destruct (decide (key = ""%string)); [done|].
      by rewrite Hget.
  Qed.
End StoreFacts.

(* ------------------------------------------------------------------ *)
(** ** The store with the FIFO queue *)
(* ------------------------------------------------------------------ *)

Section QueueStore.
Context {V : Type}.
Variable DeepSizeV : V -> Z.
Implicit Types (p : cache V queue) (k : string) (now d : Z).

Lemma queue_Peek_cases (q : queue) :
    (q_array q = [] /\ queue_Peek q = (""%string, Some errEmptyQueue)) \/
    (exists key rest, q_array q = key :: rest /\ queue_Peek q = (key, None)).
  Proof.
    unfold queue_Peek, queue_IsEmpty, queue_Size.
    destruct (q_array q) as [|key rest]; [left | right]; [done|].
    exists key, rest. split; [done|].
    rewrite bool_decide_eq_false_2; [done|]. simpl. lia.
  Qed.

Lemma cache_delete_queue p k :
    q_array (keyManager (cache_delete p k).1) =
    match items p !! k with
    | Some _ => remove (q_array (keyManager p)) k
    | None => q_array (keyManager p)
    end.
  Proof.
    unfold cache_delete. destruct (items p !! k) as [v|]; simpl; [|done].
    unfold cache_deductMemUsage. by destruct (decide _).
  Qed.

  (** When the loop gives up because the queue is empty, it has only
      removed entries, and none if the queue was empty to begin with. *)
Lemma evictLoop_exhausted (fuel : nat) p now (requireSpace : Z) p' :
    evictLoop fuel p now requireSpace = Some (p', Some errEmptyQueue) ->
    q_array (keyManager p') = [] /\
    items p' ⊆ items p /\
    opt p' = opt p /\
    (q_array (keyManager p) = [] -> p' = p).
  Proof.
    revert p requireSpace.
    induction fuel as [|fuel IH]; intros p requireSpace; simpl.
    - destruct (decide (requireSpace > 0)); discriminate.
    - destruct (decide (requireSpace > 0)); [|discriminate].
      destruct (queue_Peek_cases (keyManager p))
        as [[Hq ->] | (key & rest & Hq & ->)].
      + intros [= <-]. done.
      + destruct (decide (key = ""%string)); [discriminate|].
        destruct (cache_getItem p now key) as [item|].
        * intros Hloop. apply IH in Hloop as (Hq' & Hsub & Hopt & _).
          split; [done|]. split; [|split].
          -- etrans; [exact Hsub|]. rewrite cache_delete_items.
             apply delete_subseteq.
          -- by rewrite Hopt, cache_delete_opt.
          -- rewrite Hq. discriminate.
        * apply IH.
  Qed.

Lemma memoryCheck_exhausted (fuel : nat) p now (size : Z) p' :
    memoryCheck fuel p now size = Some (p', Some errEmptyQueue) ->
    q_array (keyManager p') = [] /\
    items p' ⊆ items p /\
    opt p' = opt p /\
    (q_array (keyManager p) = [] -> p' = p).
  Proof.
    unfold memoryCheck. destruct (decide _); [|discriminate].
    apply evictLoop_exhausted.
  Qed.

Lemma capacityCheck_cases p :
    (capacityCheck p = inl p) \/
    (q_array (keyManager p) = [] /\ capacityCheck p = inr errEmptyQueue) \/
    (exists key rest, q_array (keyManager p) = key :: rest /\
       capacityCheck p = inl (cache_delete p key).1).
  Proof.
    unfold capacityCheck. destruct (decide _); [|by left].
    right. simpl.
    destruct (queue_Peek_cases (keyManager p))
      as [[Hq ->] | (key & rest & Hq & ->)]; [left | right]; eauto.
  Qed.

  (** C2, as amended: an Insert that fails because the policy has no
      candidate left writes no entry, but the victims it evicted before
      failing stay evicted.  The entry map afterwards is a part of the
      one before, the queue is empty, and the store is the same as
      before exactly when the queue was empty already. *)
Theorem failed_Set_keeps_evictions (fuel : nat) p k (v : V) d now p' :
    cache_Set DeepSizeV fuel p k v d now = Some (p', Some errEmptyQueue) ->
    q_array (keyManager p') = [] /\
    items p' ⊆ items p /\
    opt p' = opt p /\
    (p' = p <-> q_array (keyManager p) = []).
  Proof.
    unfold cache_Set, cache_set. intros Hset.
    cut (q_array (keyManager p') = [] /\ items p' ⊆ items p /\
         opt p' = opt p /\ (q_array (keyManager p) = [] -> p' = p)).
    { intros (Hq & Hsub & Hopt & Hsame). repeat split; try done.
      intros ->. done. }
    destruct (capacityCheck_cases p)
      as [Hc | [[Hq Hc] | (key & rest & Hq & Hc)]]; rewrite Hc in Hset.
    - destruct (memoryCheck _ _ _ _) as [[p1 [err|]]|] eqn:Hloop;
        [|discriminate..].
      injection Hset as <- ->. by apply memoryCheck_exhausted in Hloop.
    - injection Hset as <-. done.
    - destruct (memoryCheck _ _ _ _) as [[p1 [err|]]|] eqn:Hloop;
        [|discriminate..].
      injection Hset as <- ->.
      apply memoryCheck_exhausted in Hloop as (Hq' & Hsub & Hopt & _).
      split; [done|]. split; [|split].
      + etrans; [exact Hsub|]. rewrite cache_delete_items.
        apply delete_subseteq.
      + by rewrite Hopt, cache_delete_opt.
      + rewrite Hq. discriminate.
  Qed.
End QueueStore.

(* ------------------------------------------------------------------ *)
(** ** The estimator *)
(* ------------------------------------------------------------------ *)

Lemma addSizes_growing (g : sizer) (vs : list value) (base : Z)
    (seen : gset addr) n seen' :
  growing g -> addSizes g vs base seen = Some (n, seen') -> seen ⊆ seen'.
Proof.
  intros Hg. revert base seen.
  induction vs as [|v vs IH]; intros base seen; simpl.
  - by intros [= _ <-].
  - destruct (g v seen) as [[m s1]|] eqn:Hv; [|discriminate].
    intros Hrest. apply IH in Hrest. apply Hg in Hv. set_solver.
Qed.

Lemma fieldSize_growing (g : sizer) (h : heap) :
  growing g -> growing (fieldSize g h).
Proof.
  intros Hg f seen n seen'. destruct f; simpl; try (by intros [= _ <-]).
  - destruct (_ && _); [|by intros [= _ <-]].
    intros Hp. apply Hg in Hp. set_solver.
  - apply Hg.
Qed.

Section EstimatorFacts.
Variable mapBuckets : Z -> Z.

Lemma valueSize_growing (fuel : nat) (h : heap) :
    growing (valueSize mapBuckets fuel h).
  Proof.
    induction fuel as [|fuel IH]; intros v seen n seen'; simpl; [done|].
    destruct v as [sz|len|p|arr len cap|zk zv m|sz fields].
    - by intros [= _ <-].
    - by intros [= _ <-].
    - destruct (_ && _); [|by intros [= _ <-]].
      destruct (valueSize _ _ _ _ _) as [[m s1]|] eqn:Hp; [|discriminate].
      intros [= _ <-]. apply IH in Hp. set_solver.
    - destruct (addSizes _ _ _ _) as [[b s1]|] eqn:Hs; [|discriminate].
      apply addSizes_growing in Hs; [|done].
      destruct (decide _); by intros [= _ <-].
    - destruct (addSizes _ _ _ _) as [[b s1]|] eqn:Hs; [|discriminate].
      apply addSizes_growing in Hs; [|done]. by intros [= _ <-].
    - apply addSizes_growing. by apply fieldSize_growing.
  Qed.
End EstimatorFacts.

(** Severing commutes with reading the heap. *)
Lemma typeSize_sever (S : gset addr) (v : value) :
  typeSize (sever S v) = typeSize v.
Proof. destruct v; simpl; try done. by destruct (bool_decide _). Qed.

Lemma elemOf_sever (S : gset addr) (h : heap) (p : addr) :
  elemOf (sever_heap S h) p = sever S (elemOf h p).
Proof.
  unfold elemOf, sever_heap. simpl. rewrite lookup_fmap.
  by destruct (pointee h !! p).
Qed.

Lemma indexOf_sever (S : gset addr) (h : heap) (arr : addr) (len : Z) :
  indexOf (sever_heap S h) arr len = map (sever S) (indexOf h arr len).
Proof.
  unfold indexOf, sever_heap. simpl. rewrite lookup_fmap.
  destruct (arrays h !! arr) as [l|]; simpl.
  - symmetry. apply (fmap_take (sever S)).
  - by rewrite take_nil.
Qed.

Lemma entriesOf_sever (S : gset addr) (h : heap) (m : addr) :
  entriesOf (sever_heap S h) m =
  map (fun kv => (sever S kv.1, sever S kv.2)) (entriesOf h m).
Proof.
  unfold entriesOf, sever_heap. simpl. rewrite lookup_fmap.
  by destruct (hmaps h !! m).
Qed.

(** Two sizers that agree up to severing agree on lists. *)
Lemma addSizes_sever (S : gset addr) (g' g : sizer) (vs : list value)
    (base : Z) (seen : gset addr) :
  growing g ->
  (forall v s, S ⊆ s -> g' (sever S v) s = g v s) ->
  S ⊆ seen ->
  addSizes g' (map (sever S) vs) base seen = addSizes g vs base seen.
Proof.
  intros Hg Hagree. revert base seen.
  induction vs as [|v vs IH]; intros base seen HS; simpl; [done|].
  rewrite Hagree by done.
  destruct (g v seen) as [[n s1]|] eqn:Hv; [|done].
  apply IH. apply Hg in Hv. set_solver.
Qed.

Section Sever.
Variable mapBuckets : Z -> Z.

Lemma fieldSize_sever (S : gset addr) (g' g : sizer) (h : heap) :
    (forall v s, S ⊆ s -> g' (sever S v) s = g v s) ->
    forall f s, S ⊆ s ->
      fieldSize g' (sever_heap S h) (sever S f) s = fieldSize g h f s.
  Proof.
    intros Hagree f s HS. destruct f as [| |p|arr len cap| |]; simpl; try done.
    - destruct (bool_decide (p ∈ S)) eqn:HpS; simpl.
      + apply bool_decide_eq_true in HpS.
        rewrite andb_false_r.
        rewrite (bool_decide_eq_false_2 (p ∉ s)); [done|]. set_solver.
      + destruct (_ && _); [|done].
        rewrite elemOf_sever. apply Hagree. set_solver.
    - apply (Hagree (VSlice arr len cap)). done.
  Qed.

  (** A pointer to an address already seen weighs what a nil pointer
      weighs: nothing changes when such pointers are set to nil
      throughout the graph. *)
Lemma valueSize_sever (S : gset addr) (fuel : nat) (h : heap) (v : value)
      (seen : gset addr) :
    S ⊆ seen ->
    valueSize mapBuckets fuel (sever_heap S h) (sever S v) seen =
    valueSize mapBuckets fuel h v seen.
  Proof.
    revert v seen. induction fuel as [|fuel IH]; intros v seen HS; [done|].
    destruct v as [sz|len|p|arr len cap|zk zv m|sz fields]; simpl; try done.
    - destruct (bool_decide (p ∈ S)) eqn:HpS; simpl.
      + apply bool_decide_eq_true in HpS.
        rewrite andb_false_r.
        rewrite (bool_decide_eq_false_2 (p ∉ seen)); [done|]. set_solver.
      + destruct (_ && _); [|done].
        rewrite elemOf_sever, IH; [done|]. set_solver.
    - rewrite indexOf_sever.
      rewrite (addSizes_sever S _ (valueSize mapBuckets fuel h)); try done.
      apply valueSize_growing.
    - rewrite entriesOf_sever.
      rewrite length_map.
      replace (flat_map (fun kv => [kv.1; kv.2])
                 (map (fun kv => (sever S kv.1, sever S kv.2)) (entriesOf h m)))
        with (map (sever S) (flat_map (fun kv => [kv.1; kv.2]) (entriesOf h m))).
      2:{ induction (entriesOf h m) as [|kv l IHl]; simpl; [done|].
          by rewrite IHl. }
      rewrite (addSizes_sever S _ (valueSize mapBuckets fuel h)); try done.
      apply valueSize_growing.
    - apply addSizes_sever; [|by apply fieldSize_sever|done].
      apply fieldSize_growing, valueSize_growing.
  Qed.
End Sever.

Section Termination.
Variable mapBuckets : Z -> Z.

Lemma unvisited_mono (h : heap) (seen seen' : gset addr) :
    seen ⊆ seen' -> (unvisited h seen' <= unvisited h seen)%nat.
  Proof. intros Hs. apply subseteq_size. set_solver. Qed.

Lemma unvisited_visit (h : heap) (seen : gset addr) (p : addr) :
    p ∉ seen -> is_Some (pointee h !! p) ->
    (unvisited h ({[p]} ∪ seen) < unvisited h seen)%nat.
  Proof.
    intros Hp Hin. apply subset_size. apply elem_of_dom in Hin. set_solver.
  Qed.

Lemma valueSize_returns (fuel : nat) (h : heap) (v : value)
      (seen : gset addr) :
    recordsOnly h ->
    (unvisited h seen + 2 <= fuel)%nat ->
    is_Some (valueSize mapBuckets fuel h v seen).
  Proof.
    intros [Harr Hmap]. revert v seen.
    induction fuel as [|fuel IH]; intros v seen Hfuel; [lia|].
    assert (forall p s, p ∉ s -> (unvisited h s + 1 <= fuel)%nat ->
              is_Some (valueSize mapBuckets fuel h (elemOf h p) ({[p]} ∪ s)))
      as Hptr.
    { intros p s Hp Hf. destruct (pointee h !! p) as [x|] eqn:Hx.
      - apply IH. pose proof (unvisited_visit h s p Hp) as Hlt.
        rewrite Hx in Hlt. specialize (Hlt ltac:(eauto)). lia.
      - unfold elemOf. rewrite Hx. simpl.
        destruct fuel as [|fuel']; [lia|]. simpl. eauto. }
    destruct v as [sz|len|p|arr len cap|zk zv m|sz fields]; simpl; eauto.
    - destruct (bool_decide (p ∉ seen)) eqn:Hp; simpl; [|eauto].
      apply bool_decide_eq_true in Hp.
      destruct (bool_decide (p <> 0)); [|eauto].
      destruct (Hptr p seen Hp ltac:(lia)) as [[n s1] ->]. eauto.
    - unfold indexOf. rewrite Harr, lookup_empty. simpl. rewrite take_nil.
      simpl. destruct (decide _); eauto.
    - unfold entriesOf. rewrite Hmap, lookup_empty. simpl. eauto.
    - assert (unvisited h seen + 1 <= fuel)%nat as Hf by lia.
      clear Hfuel. revert seen Hf. generalize sz as base.
      induction fields as [|f fields IHf]; intros base seen Hf; simpl; [eauto|].
      assert (is_Some (fieldSize (valueSize mapBuckets fuel h) h f seen)) as [[n s1] Hfs].
      { destruct f as [| |p|arr len cap| |]; simpl; eauto.
        - destruct (bool_decide (p ∉ seen)) eqn:Hp; simpl; [|eauto].
          apply bool_decide_eq_true in Hp.
          destruct (bool_decide (p <> 0)); [|eauto]. by apply Hptr.
        - destruct fuel as [|fuel']; [lia|]. simpl.
          unfold indexOf. rewrite Harr, lookup_empty. simpl. rewrite take_nil.
          simpl. destruct (decide _); eauto. }
      rewrite Hfs. apply IHf.
      apply fieldSize_growing in Hfs; [|apply valueSize_growing].
      pose proof (unvisited_mono h seen s1 Hfs). lia.
  Qed.

  (** More fuel does not change a result. *)
Lemma addSizes_ext_Some (g g' : sizer) (vs : list value) (base : Z)
      (seen : gset addr) r :
    (forall v s r, g v s = Some r -> g' v s = Some r) ->
    addSizes g vs base seen = Some r -> addSizes g' vs base seen = Some r.
  Proof.
    intros Hgg. revert base seen.
    induction vs as [|v vs IH]; intros base seen; simpl; [done|].
    destruct (g v seen) as [[n s1]|] eqn:Hv; [|discriminate].
    rewrite (Hgg _ _ _ Hv). apply IH.
  Qed.

Lemma valueSize_fuel_mono (fuel : nat) (h : heap) (v : value)
      (seen : gset addr) r :
    valueSize mapBuckets fuel h v seen = Some r ->
    valueSize mapBuckets (S fuel) h v seen = Some r.
  Proof.
    revert v seen r. induction fuel as [|fuel IH]; intros v seen r; [done|].
    intros Hv. simpl in Hv. 
    change (valueSize mapBuckets (S (S fuel)) h v seen) with
      (let base := typeSize v in
       match v with
       | VPtr p =>
           if bool_decide (p ∉ seen) && bool_decide (p <> 0)
           then match valueSize mapBuckets (S fuel) h (elemOf h p) ({[p]} ∪ seen) with
                | None => None
                | Some (n, seen) => Some (Uintptr.add base n, seen)
                end
           else Some (base, seen)
       | VSlice arr n cap =>
           match addSizes (valueSize mapBuckets (S fuel) h) (indexOf h arr n) base seen with
           | None => None
           | Some (base, seen) =>
               if decide (cap > n)
               then Some (Uintptr.add base
                            (Uintptr.mul (typeSize v) (Uintptr.wrap (cap - n))),
                          seen)
               else Some (base, seen)
           end
       | VMap zk zv m =>
           let entries := entriesOf h m in
           let len := Z.of_nat (length entries) in
           let nb := mapBuckets len in
           let nb := if decide (nb = 0) then 1 else nb in
           let base := Uintptr.mul 16 nb in
           match addSizes (valueSize mapBuckets (S fuel) h)
                   (flat_map (fun kv => [kv.1; kv.2]) entries) base seen with
           | None => None
           | Some (base, seen) =>
               Some (Uintptr.add base
                       (Uintptr.mul (Uintptr.sub (Uintptr.mul 8 nb) len)
                                    (Uintptr.add zk zv)),
                     seen)
           end
       | VStruct _ fields =>
           addSizes (fieldSize (valueSize mapBuckets (S fuel) h) h) fields base seen
       | VString len => Some (Uintptr.add base len, seen)
       | VOther _ => Some (base, seen)
       end).
    cbv zeta.
    destruct v as [sz|len|p|arr len cap|zk zv m|sz fields]; try done.
    - destruct (_ && _); [|done].
      destruct (valueSize mapBuckets fuel h _ _) as [[n s1]|] eqn:Hp; [|discriminate].
      by rewrite (IH _ _ _ Hp).
    - destruct (addSizes (valueSize mapBuckets fuel h) _ _ _) as [[b s1]|] eqn:Hs;
        [|discriminate].
      by rewrite (addSizes_ext_Some _ _ _ _ _ _ IH Hs).
    - cbv zeta in Hv. 
      destruct (addSizes (valueSize mapBuckets fuel h) _ _ _) as [[b s1]|] eqn:Hs;
        [|discriminate].
      by rewrite (addSizes_ext_Some _ _ _ _ _ _ IH Hs).
    - revert Hv. apply addSizes_ext_Some.
      intros f s r'. destruct f; simpl; try done.
      + destruct (_ && _); [|done]. apply IH.
      + apply IH.
  Qed.

Lemma loop_never_returns (fuel : nat) (seen : gset addr) :
    valueSize mapBuckets fuel h_loop v_loop seen = None /\
    valueSize mapBuckets fuel h_loop (VSlice 4096 1 1) seen = None.
  Proof.
    revert seen. induction fuel as [|fuel IH]; intros seen; [done|].
    split.
    - simpl. by rewrite (proj2 (IH seen)).
    - assert (indexOf h_loop 4096 1 = [v_loop]) as Hidx.
      { unfold indexOf, h_loop. simpl. by rewrite lookup_singleton_eq. }
      cbn [valueSize]. rewrite Hidx. cbn [addSizes].
      by rewrite (proj1 (IH seen)).
  Qed.
End Termination.

Section Cycles.
Variable mapBuckets : Z -> Z.

Lemma DeepSize_string_eq (fuel : nat) (h : heap) (k : string) :
    DeepSize mapBuckets (S fuel) h (VString (Z.of_nat (String.length k))) =
    Some (DeepSize_string k).
  Proof. done. Qed.

  (** Setting to nil every pointer back to the record the estimation
      starts from changes nothing, whatever else the graph holds and
      whether or not the estimation returns. *)
Lemma DeepSize_sever_root (fuel : nat) (h : heap) (a : addr) :
    DeepSize mapBuckets fuel (sever_heap {[a]} h) (VPtr a) =
    DeepSize mapBuckets fuel h (VPtr a).
  Proof.
    unfold DeepSize. destruct fuel as [|fuel]; [done|]. simpl.
    destruct (_ && _); [|done].
    rewrite elemOf_sever, valueSize_sever; [done|]. set_solver.
  Qed.

Lemma DeepSize_returns (fuel : nat) (h : heap) (v : value) :
    recordsOnly h -> (unvisited h ∅ + 2 <= fuel)%nat ->
    is_Some (DeepSize mapBuckets fuel h v).
  Proof.
    intros Hrec Hfuel. unfold DeepSize.
    destruct (valueSize_returns mapBuckets fuel h v ∅ Hrec Hfuel)
      as [[n s] ->]. eauto.
  Qed.
End Cycles.

(** [TestCycles]: 24 bytes with the cycle and without it. *)
Example TestCycles :
  sever_heap {[4096]} h_cycle = h_acyclic /\
  DeepSize exactBuckets 3 h_cycle (VPtr 4096) = Some 24 /\
  DeepSize exactBuckets 3 h_acyclic (VPtr 4096) = Some 24.
Proof. split_and!; vm_compute; reflexivity. Qed.

(** C7: the record [n] of type [struct{Kids []N}] with [n.Kids[0] = n] is
    self-referential, and [DeepSize] does not return on it, whatever the
    fuel: [valueSize] threads [seen] through the elements of a slice but
    consults it for pointers only, so the recursion enters [n] again at
    every turn.  On the same record with [n.Kids] set to nil [DeepSize]
    returns 48. *)
Theorem DeepSize_diverges_on_slice_cycle :
  ~ (exists (fuel : nat) (n : Z),
       DeepSize exactBuckets fuel h_loop v_loop = Some n) /\
  DeepSize exactBuckets 2 h_loop v_cut = Some 48.
Proof.
  split; [|vm_compute; reflexivity].
  intros (fuel & n & Hn). unfold DeepSize in Hn.
  by rewrite (proj1 (loop_never_returns exactBuckets fuel ∅)) in Hn.
Qed.

(* ------------------------------------------------------------------ *)
(** ** The memory counter *)
(* ------------------------------------------------------------------ *)

Section Counter.
Context {V K : Type} `{!KeyManager K}.
Variable DeepSizeV : V -> Z.
Implicit Types (p : cache V K) (k : string) (now d n : Z).

Lemma deduct_nonneg p (mem : Z) :
    0 <= memUsage (cache_deductMemUsage p mem).
  Proof.
    unfold cache_deductMemUsage. destruct (decide _); simpl; lia.
  Qed.

Lemma deduct_clamps p (mem : Z) :
    0 <= memUsage p -> memUsage p < mem <= Int64.max_int ->
    memUsage (cache_deductMemUsage p mem) = 0.
  Proof.
    intros Hm Hmem. unfold cache_deductMemUsage, Int64.sub.
    rewrite Int64_wrap_id.
    - destruct (decide _); [done | lia].
    - unfold Int64.in_range, Int64.min_int, Int64.max_int in *. lia.
  Qed.

Lemma deduct_bounded n p (mem : Z) :
    bounded n p -> n <= Int64.max_int -> 0 <= mem <= Int64.max_int ->
    bounded n (cache_deductMemUsage p mem).
  Proof.
    intros [Hm Hit] Hn Hmem. unfold cache_deductMemUsage, Int64.sub.
    rewrite Int64_wrap_id.
    - destruct (decide _); split; simpl; try done; lia.
    - unfold Int64.in_range, Int64.min_int, Int64.max_int in *. lia.
  Qed.

Lemma bounded_weaken n n' p : bounded n p -> n <= n' -> bounded n' p.
  Proof. intros [Hm Hit] Hn. split; [lia | done]. Qed.

Lemma delete_bounded n p k :
    bounded n p -> n <= Int64.max_int -> bounded n (cache_delete p k).1.
  Proof.
    intros Hb Hn. unfold cache_delete.
    destruct (items p !! k) as [v|] eqn:Hk; simpl; [|done].
    assert (0 <= Mem v <= Int64.max_int) as Hv.
    { destruct Hb as [_ Hit]. exact (Hit k v Hk). }
    pose proof (deduct_bounded n (set_items p (delete k (items p))) (Mem v))
      as Hd.
    destruct Hd as [Hm Hit]; [|done..|].
    { destruct Hb as [Hm Hit]. split; [done|]. simpl.
      by apply map_Forall_delete. }
    split; done.
  Qed.

Lemma evictLoop_bounded (fuel : nat) n p now (requireSpace : Z) p' e :
    bounded n p -> n <= Int64.max_int ->
    evictLoop fuel p now requireSpace = Some (p', e) -> bounded n p'.
  Proof.
    intros Hb Hn. revert p requireSpace Hb.
    induction fuel as [|fuel IH]; intros p requireSpace Hb; simpl.
    - destruct (decide _); [discriminate|]. by intros [= <- <-].
    - destruct (decide _); [|by intros [= <- <-]].
      destruct (km_Peek (keyManager p)) as [key [err|]].
      + by intros [= <- <-].
      + destruct (decide (key = ""%string)); [by intros [= <- <-]|].
        destruct (cache_getItem p now key) as [item|].
        * apply IH. by apply delete_bounded.
        * by apply IH.
  Qed.

Lemma capacityCheck_bounded n p p1 :
    bounded n p -> n <= Int64.max_int ->
    capacityCheck p = inl p1 -> bounded n p1.
  Proof.
    intros Hb Hn. unfold capacityCheck. destruct (decide _).
    - destruct (km_Peek (keyManager p)) as [key [err|]]; [discriminate|].
      intros [= <-]. by apply delete_bounded.
    - by intros [= <-].
  Qed.

Lemma memoryCheck_bounded (fuel : nat) n p now (size : Z) p' e :
    bounded n p -> n <= Int64.max_int ->
    memoryCheck fuel p now size = Some (p', e) -> bounded n p'.
  Proof.
    intros Hb Hn. unfold memoryCheck. destruct (decide _).
    - by apply evictLoop_bounded.
    - by intros [= <- <-].
  Qed.

Lemma writeEntry_bounded n p k (v : V) (e size : Z) :
    bounded n p -> 0 <= size -> n + size <= Int64.max_int ->
    bounded (n + size) (writeEntry p k v e size).
  Proof.
    intros [Hm Hit] Hs Hn. split; simpl.
    - unfold Int64.add. rewrite Int64_wrap_id; [lia|].
      unfold Int64.in_range, Int64.min_int, Int64.max_int in *. lia.
    - apply map_Forall_insert_2; [|done]. simpl. lia.
  Qed.

Lemma set_bounded (fuel : nat) n p k (v : V) d now p' e :
    bounded n p ->
    0 <= calculateItemSize DeepSizeV k v ->
    n + calculateItemSize DeepSizeV k v <= Int64.max_int ->
    cache_set DeepSizeV fuel p k v d now = Some (p', e) ->
    bounded (n + calculateItemSize DeepSizeV k v) p'.
  Proof.
    intros Hb Hs Hn. unfold cache_set.
    set (size := calculateItemSize DeepSizeV k v) in *.
    destruct (capacityCheck p) as [p1|err] eqn:Hc.
    2:{ intros [= <- <-]. apply (bounded_weaken n); [done | lia]. }
    apply (capacityCheck_bounded n) in Hc; [|done|lia].
    destruct (memoryCheck _ _ _ _) as [[p2 [err|]]|] eqn:Hloop; [| |discriminate].
    - intros [= <- <-]. apply (bounded_weaken n); [|lia].
      apply (memoryCheck_bounded _ _ _ _ _ _ _ Hc ltac:(lia) Hloop).
    - intros [= <- <-]. apply writeEntry_bounded; [|done..].
      apply (memoryCheck_bounded _ _ _ _ _ _ _ Hc ltac:(lia) Hloop).
  Qed.

Lemma cache_getItem_Some p now k (item : Item V) :
    cache_getItem p now k = Some item -> items p !! k = Some item.
  Proof.
    unfold cache_getItem. destruct (items p !! k) as [it|]; [|done].
    repeat destruct (decide _); congruence.
  Qed.

Lemma expire_bounded now n (l : list (string * Item V))
      (acc : cache V K * list (string * option V)) :
    bounded n acc.1 -> n <= Int64.max_int ->
    bounded n (foldl (expireStep now) acc l).1.
  Proof.
    intros Hb Hn. revert acc Hb.
    induction l as [|kv l IH]; intros acc Hb; simpl; [done|].
    apply IH. unfold expireStep. destruct (decide _); [|done].
    pose proof (delete_bounded n acc.1 kv.1 Hb Hn) as Hd.
    destruct (cache_delete acc.1 kv.1) as [p1 [ov evicted]]. done.
  Qed.

Lemma step_bounded (fuel : nat) n p now (o : op V) p' :
    bounded n p ->
    0 <= inserted DeepSizeV o ->
    n + inserted DeepSizeV o <= Int64.max_int ->
    step DeepSizeV fuel p now o = Some p' ->
    bounded (n + inserted DeepSizeV o) p'.
  Proof.
    intros Hb Hs Hn.
    destruct o as [k v d|k v d|k v d|k| | |k|k| |]; simpl in *.
    - unfold cache_Set.
      destruct (cache_set _ _ _ _ _ _ _) as [[p1 e]|] eqn:Hset; [|discriminate].
      intros [= <-]. by eapply set_bounded.
    - unfold cache_Add. destruct (cache_get p now k).
      + intros [= <-]. apply (bounded_weaken n); [done | lia].
      + destruct (cache_set _ _ _ _ _ _ _) as [[p1 e]|] eqn:Hset; [|discriminate].
        intros [= <-]. by eapply set_bounded.
    - unfold cache_Replace.
      destruct (cache_getItem p now k) as [item|] eqn:Hget.
      2:{ intros [= <-]. apply (bounded_weaken n); [done | lia]. }
      apply cache_getItem_Some in Hget.
      assert (bounded n (cache_deductMemUsage p (Mem item))) as Hd.
      { apply deduct_bounded; [done | lia |].
        destruct Hb as [_ Hit]. exact (Hit k item Hget). }
      destruct (cache_set _ _ _ _ _ _ _) as [[p1 [err|]]|] eqn:Hset;
        [| |discriminate]; intros [= <-].
      + by eapply set_bounded.
      + pose proof (set_bounded _ _ _ _ _ _ _ _ _ Hd Hs Hn Hset) as [Hm Hit].
        split; done.
    - intros [= <-]. unfold cache_Delete.
      pose proof (delete_bounded n p k Hb ltac:(lia)) as Hd.
      destruct (cache_delete p k) as [p1 [ov evicted]].
      by rewrite Z.add_0_r.
    - intros [= <-]. rewrite Z.add_0_r.
      apply expire_bounded; [done | lia].
    - intros [= <-]. rewrite Z.add_0_r. destruct Hb as [Hm Hit].
      split; [done|]. simpl. apply map_Forall_empty.
    - intros [= <-]. rewrite Z.add_0_r. unfold cache_Get.
      destruct (items p !! k); [|done]. by repeat destruct (decide _).
    - intros [= <-]. by rewrite Z.add_0_r.
    - intros [= <-]. by rewrite Z.add_0_r.
    - intros [= <-]. by rewrite Z.add_0_r.
  Qed.

Lemma run_bounded (fuel : nat) (calls : list (Z * op V)) n p p' :
    bounded n p ->
    Forall (fun c => 0 <= inserted DeepSizeV c.2) calls ->
    n + insertedTotal DeepSizeV calls <= Int64.max_int ->
    run DeepSizeV fuel p calls = Some p' ->
    bounded (n + insertedTotal DeepSizeV calls) p'.
  Proof.
    revert n p. induction calls as [|[now o] calls IH]; intros n p Hb Hs Hn; simpl.
    - intros [= <-]. by rewrite Z.add_0_r.
    - apply Forall_cons in Hs as [Ho Hs]. simpl in *.
      assert (0 <= insertedTotal DeepSizeV calls) as Hpos.
      { clear -Hs. induction Hs as [|c l Hc _ IHl]; simpl; [done | lia]. }
      destruct (step DeepSizeV fuel p now o) as [p1|] eqn:Hstep; [|discriminate].
      intros Hrun. rewrite Z.add_assoc.
      apply (IH _ p1); [|done|lia|done].
      apply (step_bounded fuel n p now o); [done..|lia|done].
  Qed.
End Counter.

(** C10, as amended: starting from a fresh store, after any sequence of
    calls none of which records a negative size and whose sizes add up
    within the [int64] range, the reported memory usage is not negative.
    Every deduction is clamped at zero: deducting more than the counter
    holds leaves it at exactly zero. *)
Theorem Alloc_never_negative {V : Type} (DeepSizeV : V -> Z) (fuel : nat)
    (option : Option) (calls : list (Z * op V)) (p' : cache V queue) :
  Forall (fun c => 0 <= inserted DeepSizeV c.2) calls ->
  insertedTotal DeepSizeV calls <= Int64.max_int ->
  run DeepSizeV fuel (fresh option) calls = Some p' ->
  0 <= cache_Alloc p' /\
  (forall mem, 0 <= cache_Alloc (cache_deductMemUsage p' mem)) /\
  (forall mem, cache_Alloc p' < mem <= Int64.max_int ->
     cache_Alloc (cache_deductMemUsage p' mem) = 0).
Proof.
  intros Hs Hn Hrun.
  assert (bounded (0 + insertedTotal DeepSizeV calls) p') as [Hm _].
  { apply (run_bounded DeepSizeV fuel calls 0 (fresh option)); [|done..].
    split; simpl; [lia | apply map_Forall_empty]. }
  split; [unfold cache_Alloc; lia|]. split.
  - intros mem. apply deduct_nonneg.
  - intros mem Hmem. apply deduct_clamps; unfold cache_Alloc in *; lia.
Qed.

(* ------------------------------------------------------------------ *)
(** ** Expiration *)
(* ------------------------------------------------------------------ *)

Section Expiry.
Context {V K : Type} `{!KeyManager K}.
Variable DeepSizeV : V -> Z.
Implicit Types (p : cache V K) (k : string) (now d : Z).

Lemma cache_set_entry (fuel : nat) p k (v : V) d now p' :
    cache_set DeepSizeV fuel p k v d now = Some (p', None) ->
    items p' !! k =
      Some (mkItem v (expirationOf p now d) (calculateItemSize DeepSizeV k v)).
  Proof.
    unfold cache_set. destruct (capacityCheck p) as [p1|err]; [|discriminate].
    destruct (memoryCheck _ _ _ _) as [[p2 [err|]]|]; [discriminate| |discriminate].
    intros [= <-]. simpl. apply lookup_insert_eq.
  Qed.

Lemma cache_Get_never_expiring p t k (item : Item V) :
    items p !! k = Some item -> Expiration item <= 0 ->
    cache_Get p t k = (p, Some (Object item)).
  Proof.
    intros Hk He. unfold cache_Get. rewrite Hk.
    destruct (decide (Expiration item > 0)); [lia | done].
  Qed.

  (** C5, as amended: a zero ttl stands for the configured default.  The
      duration in force, when positive, is added to the current time
      (provided the instant fits [int64] nanoseconds); when zero or
      negative (a default of zero, [NoExpiration], any negative ttl) the
      entry gets expiration 0 and [Get] returns it at every later
      time. *)
Theorem Set_expiration (fuel : nat) p k (v : V) d now p' :
    cache_Set DeepSizeV fuel p k v d now = Some (p', None) ->
    exists item,
      items p' !! k = Some item /\ Object item = v /\
      (d = 0 -> DefaultExpiration (opt p) > 0 ->
       Int64.in_range (now + DefaultExpiration (opt p)) ->
       Expiration item = now + DefaultExpiration (opt p)) /\
      (d = 0 -> DefaultExpiration (opt p) <= 0 ->
       Expiration item = 0 /\ forall t, cache_Get p' t k = (p', Some v)) /\
      (d < 0 ->
       Expiration item = 0 /\ forall t, cache_Get p' t k = (p', Some v)) /\
      (d > 0 -> Int64.in_range (now + d) -> Expiration item = now + d).
  Proof.
    intros Hset. apply cache_set_entry in Hset.
    eexists. split; [exact Hset|]. split; [done|]. simpl.
    unfold expirationOf, ZeroExpiration.
    split_and!.
    - intros -> Hd Hr. repeat case_decide; try lia. by apply Int64_add_exact.
    - intros -> Hd. split; [repeat case_decide; lia|].
      intros t. rewrite (cache_Get_never_expiring _ _ _ _ Hset); [done|].
      simpl. unfold expirationOf, ZeroExpiration. repeat case_decide; lia.
    - intros Hd. split; [repeat case_decide; lia|].
      intros t. rewrite (cache_Get_never_expiring _ _ _ _ Hset); [done|].
      simpl. unfold expirationOf, ZeroExpiration. repeat case_decide; lia.
    - intros Hd Hr. repeat case_decide; try lia. by apply Int64_add_exact.
  Qed.

  (** C6, as amended: [Get] on an entry whose expiration instant has
      passed returns absent and leaves the store as it is: the entry is
      still in the map and [Size] is unchanged.  [Size] only decreases
      through an operation that writes: [Delete], [DeleteExpired],
      [Flush], or an eviction made by [Set], [Add] or [Replace]. *)
Theorem Get_expired_is_lazy p now k (item : Item V) :
    items p !! k = Some item ->
    Expiration item > 0 -> now > Expiration item ->
    cache_Get p now k = (p, None) /\
    items (cache_Get p now k).1 !! k = Some item /\
    cache_Size (cache_Get p now k).1 = cache_Size p /\
    (forall (fuel : nat) (t : Z) (o : op V) p',
        step DeepSizeV fuel p t o = Some p' ->
        cache_Size p' < cache_Size p -> mutating o = true).
  Proof.
    intros Hk He Hnow.
    assert (cache_Get p now k = (p, None)) as Hget.
    { unfold cache_Get. rewrite Hk.
      rewrite decide_True by done. by rewrite decide_True by done. }
    rewrite Hget. split_and!; [done..|].
    intros fuel t o p' Hstep Hlt.
    destruct o; try done; simpl in Hstep.
    - injection Hstep as <-.
      assert ((cache_Get p t k0).1 = p) as Hsame.
      { unfold cache_Get. destruct (items p !! k0); [|done].
        repeat destruct (decide _); done. }
      rewrite Hsame in Hlt. lia.
    - injection Hstep as <-. lia.
    - injection Hstep as <-. lia.
    - injection Hstep as <-. lia.
  Qed.
End Expiry.

(* ------------------------------------------------------------------ *)
(** ** Capacity *)
(* ------------------------------------------------------------------ *)

Section WriteFacts.
Context {V K : Type} `{!KeyManager K}.
Variable DeepSizeV : V -> Z.
Implicit Types (p : cache V K) (k : string) (now d : Z).

Lemma writeEntry_items p k (v : V) (e size : Z) :
    items (writeEntry p k v e size) = <[k := mkItem v e size]> (items p).
  Proof. done. Qed.

Lemma writeEntry_memUsage p k (v : V) (e size : Z) :
    memUsage (writeEntry p k v e size) = Int64.add (memUsage p) size.
  Proof. done. Qed.

Lemma writeEntry_opt p k (v : V) (e size : Z) :
    opt (writeEntry p k v e size) = opt p.
  Proof. done. Qed.

Lemma writeEntry_keyManager p k (v : V) (e size : Z) :
    keyManager (writeEntry p k v e size) = (km_Add (keyManager p) k).2.
  Proof. done. Qed.

Lemma cache_delete_memUsage p k (item : Item V) :
    items p !! k = Some item ->
    memUsage (cache_delete p k).1 = memUsage (cache_deductMemUsage p (Mem item)).
  Proof.
    intros Hk. unfold cache_delete. rewrite Hk. cbn [fst].
    unfold cache_deductMemUsage. cbn [memUsage set_items].
    by destruct (decide _).
  Qed.

  (** [set] when neither check has anything to evict. *)
Lemma cache_set_room (fuel : nat) p k (v : V) d now :
    ~ (Capacity (opt p) > 0 /\ cache_Size p >= Capacity (opt p)) ->
    ~ (MemoryLimit (opt p) > 0 /\
       Int64.add (memUsage p) (calculateItemSize DeepSizeV k v)
         >= MemoryLimit (opt p)) ->
    cache_set DeepSizeV fuel p k v d now =
    Some (writeEntry p k v (expirationOf p now d)
            (calculateItemSize DeepSizeV k v), None).
  Proof.
    intros Hc Hm. unfold cache_set, capacityCheck, memoryCheck.
    rewrite decide_False by done. by rewrite decide_False by done.
  Qed.
End WriteFacts.

Section Capacity.
Context {V : Type}.
Variable DeepSizeV : V -> Z.
Implicit Types (p : cache V queue) (k : string) (now d : Z).

Lemma queue_Add_unbounded (q : queue) (key : string) :
    q_size q = 0 ->
    queue_Add q key = (true, queue_Enqueue q [key]).
  Proof.
    intros Hq. unfold queue_Add.
    rewrite (bool_decide_eq_false_2 (q_size q <> 0)); [done|]. lia.
  Qed.

Lemma writeEntry_queue p k (v : V) (e size : Z) :
    q_size (keyManager p) = 0 ->
    q_array (keyManager (writeEntry p k v e size)) =
      q_array (keyManager p) ++ [k] /\
    q_size (keyManager (writeEntry p k v e size)) = 0.
  Proof.
    intros Hq. rewrite writeEntry_keyManager.
    change (km_Add (keyManager p) k) with (queue_Add (keyManager p) k).
    rewrite queue_Add_unbounded by done. done.
  Qed.

Lemma cache_delete_q_size p k :
    q_size (keyManager (cache_delete p k).1) = q_size (keyManager p).
  Proof.
    unfold cache_delete. destruct (items p !! k); [|done]. cbn [fst].
    unfold cache_deductMemUsage. by destruct (decide _).
  Qed.

  (** [set] at capacity, with room in memory once the front of the queue
      is gone. *)
Lemma cache_set_at_capacity (fuel : nat) p k (v : V) d now key rest :
    Capacity (opt p) > 0 /\ cache_Size p >= Capacity (opt p) ->
    q_array (keyManager p) = key :: rest ->
    ~ (MemoryLimit (opt p) > 0 /\
       Int64.add (memUsage (cache_delete p key).1)
         (calculateItemSize DeepSizeV k v) >= MemoryLimit (opt p)) ->
    cache_set DeepSizeV fuel p k v d now =
    Some (writeEntry (cache_delete p key).1 k v (expirationOf p now d)
            (calculateItemSize DeepSizeV k v), None).
  Proof.
    intros Hc Hq Hm. unfold cache_set, capacityCheck, memoryCheck.
    rewrite decide_True by done.
    change (km_Peek (keyManager p)) with (queue_Peek (keyManager p)).
    destruct (queue_Peek_cases (keyManager p))
      as [[Hq' _] | (key' & rest' & Hq' & ->)]; [congruence|].
    assert (key' = key) as -> by congruence.
    rewrite cache_delete_opt. by rewrite decide_False by done.
  Qed.

  (** C8: with a capacity of two and a memory limit above the three
      sizes together, inserting "1", "2", "3" into a fresh store succeeds
      three times and leaves exactly "2" and "3": the third insert
      deletes one entry, the front of the queue, "1". *)
Theorem capacity_two_evicts_oldest (fuel : nat) (option : Option)
      (v1 v2 v3 : V) (d1 d2 d3 t1 t2 t3 : Z) :
    Capacity option = 2 ->
    0 <= calculateItemSize DeepSizeV "1" v1 ->
    0 <= calculateItemSize DeepSizeV "2" v2 ->
    0 <= calculateItemSize DeepSizeV "3" v3 ->
    calculateItemSize DeepSizeV "1" v1 + calculateItemSize DeepSizeV "2" v2 +
      calculateItemSize DeepSizeV "3" v3 < MemoryLimit option <= Int64.max_int ->
    exists p1 p2 p3 : cache V queue,
      cache_Set DeepSizeV fuel (fresh option) "1" v1 d1 t1 = Some (p1, None) /\
      cache_Set DeepSizeV fuel p1 "2" v2 d2 t2 = Some (p2, None) /\
      cache_Set DeepSizeV fuel p2 "3" v3 d3 t3 = Some (p3, None) /\
      dom (items p2) = {[ "1"; "2" ]} /\
      q_array (keyManager p2) = ["1"; "2"] /\
      dom (items p3) = {[ "2"; "3" ]} /\
      q_array (keyManager p3) = ["2"; "3"] /\
      cache_Size p3 = 2 /\
      delete "3" (items p3) = delete "1" (items p2).
  Proof.
    intros Hcap.
    set (s1 := calculateItemSize DeepSizeV "1" v1).
    set (s2 := calculateItemSize DeepSizeV "2" v2).
    set (s3 := calculateItemSize DeepSizeV "3" v3).
    intros H1 H2 H3 [Hsum Hmax].
    pose proof Int64_nonneg_in_range as Hin.
    remember (fresh (V := V) option) as p0 eqn:Hp0.
    assert (opt p0 = option /\ items p0 = ∅ /\ memUsage p0 = 0 /\
            q_array (keyManager p0) = [] /\ q_size (keyManager p0) = 0)
      as (Ho0 & Hi0 & Hm0 & Hq0 & Hz0) by (by subst p0).
    clear Hp0.
    (* first insert *)
    remember (writeEntry p0 "1" v1 (expirationOf p0 t1 d1) s1) as p1 eqn:Hp1.
    assert (cache_Set DeepSizeV fuel p0 "1" v1 d1 t1 = Some (p1, None)) as Hset1.
    { unfold cache_Set. rewrite cache_set_room; [by subst p1| |].
      - rewrite Ho0, Hcap. unfold cache_Size. rewrite Hi0, map_size_empty. lia.
      - rewrite Ho0, Hm0. fold s1.
        rewrite Int64_add_exact by (apply Hin; lia). lia. }
    assert (opt p1 = option /\ items p1 = {[ "1"%string := mkItem v1 (expirationOf p0 t1 d1) s1 ]} /\
            memUsage p1 = s1 /\ q_array (keyManager p1) = ["1"%string] /\
            q_size (keyManager p1) = 0) as (Ho1 & Hi1 & Hm1 & Hq1 & Hz1).
    { subst p1. destruct (writeEntry_queue p0 "1" v1 (expirationOf p0 t1 d1) s1 Hz0)
        as [Ha Hb].
      rewrite writeEntry_opt, writeEntry_items, writeEntry_memUsage, Ha, Hb.
      rewrite Ho0, Hi0, Hm0, Hq0, insert_empty.
      rewrite Int64_add_exact by (apply Hin; lia). done. }
    clear Hp1.
    (* second insert *)
    remember (writeEntry p1 "2" v2 (expirationOf p1 t2 d2) s2) as p2 eqn:Hp2.
    assert (cache_Set DeepSizeV fuel p1 "2" v2 d2 t2 = Some (p2, None)) as Hset2.
    { unfold cache_Set. rewrite cache_set_room; [by subst p2| |].
      - rewrite Ho1, Hcap. unfold cache_Size. rewrite Hi1, map_size_singleton. lia.
      - rewrite Ho1, Hm1. fold s2.
        rewrite Int64_add_exact by (apply Hin; lia). lia. }
    assert (opt p2 = option /\
            items p2 = <["2"%string := mkItem v2 (expirationOf p1 t2 d2) s2]>
                         {[ "1"%string := mkItem v1 (expirationOf p0 t1 d1) s1 ]} /\
            memUsage p2 = s1 + s2 /\
            q_array (keyManager p2) = ["1"%string; "2"%string] /\
            q_size (keyManager p2) = 0) as (Ho2 & Hi2 & Hm2 & Hq2 & Hz2).
    { subst p2. destruct (writeEntry_queue p1 "2" v2 (expirationOf p1 t2 d2) s2 Hz1)
        as [Ha Hb].
      rewrite writeEntry_opt, writeEntry_items, writeEntry_memUsage, Ha, Hb.
      rewrite Ho1, Hi1, Hm1, Hq1.
      rewrite Int64_add_exact by (apply Hin; lia). done. }
    clear Hp2.
    assert (items p2 !! "1"%string = Some (mkItem v1 (expirationOf p0 t1 d1) s1))
      as Hl1.
    { rewrite Hi2. rewrite lookup_insert_ne by done. apply lookup_singleton_eq. }
    assert (items p2 !! "3"%string = None) as Hl3.
    { rewrite Hi2. rewrite lookup_insert_ne by done. by apply lookup_singleton_ne. }
    assert (size (items p2) = 2%nat) as Hsz2.
    { rewrite Hi2. rewrite map_size_insert_None by done.
      by rewrite map_size_singleton. }
    (* third insert: the front of the queue goes *)
    remember (cache_delete p2 "1").1 as pd eqn:Hpd.
    assert (opt pd = option /\ items pd = delete "1"%string (items p2) /\
            memUsage pd = s2 /\ q_array (keyManager pd) = ["2"%string] /\
            q_size (keyManager pd) = 0) as (Hod & Hid & Hmd & Hqd & Hzd).
    { subst pd. rewrite cache_delete_opt, cache_delete_items,
        cache_delete_queue, cache_delete_q_size, Hl1,
        (cache_delete_memUsage _ _ _ Hl1), Ho2, Hq2, Hz2.
      split_and!; try done.
      unfold cache_deductMemUsage. rewrite Hm2. cbn [Mem].
      rewrite Int64_sub_exact by (apply Hin; lia).
      destruct (decide _); cbn [memUsage set_memUsage]; lia. }
    remember (writeEntry pd "3" v3 (expirationOf p2 t3 d3) s3) as p3 eqn:Hp3.
    assert (cache_Set DeepSizeV fuel p2 "3" v3 d3 t3 = Some (p3, None)) as Hset3.
    { unfold cache_Set.
      rewrite (cache_set_at_capacity _ _ _ _ _ _ "1"%string ["2"%string]).
      - by subst p3 pd.
      - rewrite Ho2, Hcap. unfold cache_Size. rewrite Hsz2. lia.
      - done.
      - rewrite <- Hpd, Ho2, Hmd. fold s3.
        rewrite Int64_add_exact by (apply Hin; lia). lia. }
    assert (items p3 = <["3"%string := mkItem v3 (expirationOf p2 t3 d3) s3]>
                         (delete "1"%string (items p2)) /\
            q_array (keyManager p3) = ["2"%string; "3"%string]) as (Hi3 & Hq3).
    { subst p3. destruct (writeEntry_queue pd "3" v3 (expirationOf p2 t3 d3) s3 Hzd)
        as [Ha Hb].
      rewrite writeEntry_items, Ha, Hid, Hqd. done. }
    exists p1, p2, p3. split_and!; try done.
    - rewrite Hi2, dom_insert_L, dom_singleton_L. set_solver.
    - rewrite Hi3, dom_insert_L, dom_delete_L, Hi2, dom_insert_L, dom_singleton_L.
      apply set_eq. intros x.
      rewrite !elem_of_union, elem_of_difference, !elem_of_union,
        !elem_of_singleton.
      split.
      + intros [->|[[->| ->] Hne]]; [by right|by left|done].
      + intros [->| ->]; [right|left]; [|done]. split; [by left|done].
    - unfold cache_Size. rewrite Hi3.
      rewrite map_size_insert_None.
      + rewrite map_size_delete_Some by (rewrite Hl1; eauto). by rewrite Hsz2.
      + by rewrite lookup_delete_ne.
    - rewrite Hi3, delete_insert_eq. apply delete_id.
      by rewrite lookup_delete_ne.
  Qed.
End Capacity.

(* ------------------------------------------------------------------ *)
(** ** Runs from a fresh store *)
(* ------------------------------------------------------------------ *)

(** C3: [Flush] empties the entry map and touches nothing else; after
    [Set("1", val, 20s)] on a fresh store and [Flush], the counter still
    reads 57 and the queue still holds "1". *)
Theorem Flush_resets_only_the_map :
  (forall (V K : Type) (p : cache V K),
      items (cache_Flush p) = ∅ /\
      memUsage (cache_Flush p) = memUsage p /\
      keyManager (cache_Flush p) = keyManager p) /\
  exists p : cache value queue,
    run sizeOf 1 (fresh option128) [(0, OpSet "1"%string val seconds20)] = Some p /\
    items (cache_Flush p) = ∅ /\
    cache_Alloc (cache_Flush p) = 57 /\
    q_array (keyManager (cache_Flush p)) = ["1"%string].
Proof.
  split; [done|].
  eexists. split; [vm_compute; reflexivity|]. done.
Qed.

(** C1: three runs from a fresh store after which the counter or the
    queue disagrees with the entry map: [Set] then [Flush]; [Set] twice
    on one key; [Set] then [Replace]. *)
Theorem invariant_broken_by_Flush_Set_Replace :
  (exists p : cache value queue,
      run sizeOf 1 (fresh option128)
        [(0, OpSet "a"%string val seconds20); (1, OpFlush)] = Some p /\
      ~ accounted p /\ ~ tracked p) /\
  (exists p : cache value queue,
      run sizeOf 1 (fresh option128)
        [(0, OpSet "a"%string val seconds20);
         (1, OpSet "a"%string val seconds20)] = Some p /\
      ~ accounted p /\ ~ tracked p) /\
  (exists p : cache value queue,
      run sizeOf 1 (fresh option128)
        [(0, OpSet "a"%string val seconds20);
         (1, OpReplace "a"%string val seconds20)] = Some p /\
      ~ tracked p).
Proof.
  split; [|split].
  - eexists. split; [vm_compute; reflexivity|]. split.
    + unfold accounted. vm_compute. discriminate.
    + intros [_ Hk]. destruct (proj1 (Hk "a"%string)) as [x Hx].
      * apply list_elem_of_here.
      * vm_compute in Hx. discriminate.
  - eexists. split; [vm_compute; reflexivity|]. split.
    + unfold accounted. vm_compute. discriminate.
    + intros [Hnd _]. cbn [keyManager q_array] in Hnd.
      apply NoDup_cons in Hnd as [Hn _]. apply Hn, list_elem_of_here.
  - eexists. split; [vm_compute; reflexivity|].
    intros [Hnd _]. cbn [keyManager q_array] in Hnd.
    apply NoDup_cons in Hnd as [Hn _]. apply Hn, list_elem_of_here.
Qed.

(** C9: a fresh store with a 128 byte limit receives [Set("a", val, 1ms)]
    at time 0.  One second later the entry has expired and is still the
    front of the queue; [Set("b", <100 byte string>, 20s)] then needs 70
    bytes, is handed "a" by the queue, does not find it live, and asks
    again: no amount of fuel makes the call return. *)
Theorem Set_spins_on_expired_front :
  run sizeOf 1 (fresh option128) [(0, OpSet "a"%string val 1000000)]
    = Some (store_a option128 0 1000000) /\
  forall fuel : nat,
    cache_Set sizeOf fuel (store_a option128 0 1000000)
      "b"%string (VString 100) seconds20 1000000000 = None.
Proof.
  split; [vm_compute; reflexivity|].
  intros fuel. unfold cache_Set, cache_set.
  assert (capacityCheck (store_a option128 0 1000000)
          = inl (store_a option128 0 1000000)) as -> by (vm_compute; reflexivity).
  unfold memoryCheck. rewrite decide_True by (split; vm_compute; done).
  rewrite (evictLoop_spins fuel _ _ _ "a"%string); [done|..].
  - vm_compute. reflexivity.
  - vm_compute. reflexivity.
  - done.
  - vm_compute. reflexivity.
Qed.

(** C4: [Set("", val)], [Set("a", val)], a [Replace("a", ...)] that fails
    on the empty key at the front of the queue after deducting 57 bytes,
    and [Delete("")] leave the entry "a" with a counter of 0.
    [Set("b", <100 byte string>)] then succeeds and the counter reads
    141, above the limit of 128. *)
Theorem Set_exceeds_limit_after_failed_Replace :
  exists p1 p2 p3 p' : cache value queue,
    run sizeOf 1 (fresh option128)
      [(0, OpSet ""%string val seconds20);
       (1, OpSet "a"%string val seconds20)] = Some p1 /\
    cache_Replace sizeOf 1 p1 "a"%string (VString 100) seconds20 2
      = Some (p2, Some "invalid key"%string) /\
    items p2 = items p1 /\ memUsage p1 = 113 /\ memUsage p2 = 56 /\
    (cache_Delete p2 ""%string).1 = p3 /\ memUsage p3 = 0 /\
    cache_Set sizeOf 1 p3 "b"%string (VString 100) seconds20 4 = Some (p', None) /\
    MemoryLimit (opt p') = 128 /\
    cache_Alloc p' = 141.
Proof.
  do 4 eexists.
  split; [vm_compute; reflexivity|].
  split; [vm_compute; reflexivity|].
  split; [vm_compute; reflexivity|].
  split; [vm_compute; reflexivity|].
  split; [vm_compute; reflexivity|].
  split; [vm_compute; reflexivity|].
  split; [vm_compute; reflexivity|].
  split; [vm_compute; reflexivity|].
  split; vm_compute; reflexivity.
Qed.

(** C2, counterexample: the store holds "a" (57 bytes, limit 128);
    [Set("b", <200 byte string>)] needs 170 bytes, evicts "a", finds the
    queue empty and fails.  The store it leaves is the empty one, not the
    one it was given. *)
Lemma failed_Set_drains_store :
  run sizeOf 1 (fresh option128) [(0, OpSet "a"%string val seconds20)]
    = Some (store_a option128 0 seconds20) /\
  cache_Set sizeOf 2 (store_a option128 0 seconds20)
    "b"%string (VString 200) seconds20 1
    = Some (fresh option128, Some errEmptyQueue) /\
  fresh option128 <> store_a option128 0 seconds20.
Proof.
  split; [vm_compute; reflexivity|]. split; [vm_compute; reflexivity|].
  intros Heq. apply (f_equal memUsage) in Heq. vm_compute in Heq. discriminate.
Qed.

(** C5, counterexample: with a default expiration of zero, a zero ttl
    gives expiration 0, the mark of an entry that never expires, and not
    the time of the call plus the default. *)
Lemma Set_zero_ttl_without_default :
  exists p' : cache value queue,
    cache_Set sizeOf 1 (fresh option0) "a"%string val 0 1000 = Some (p', None) /\
    Expiration <$> (items p' !! "a"%string) = Some 0 /\
    Expiration <$> (items p' !! "a"%string)
      <> Some (1000 + DefaultExpiration option0).
Proof.
  eexists. split; [vm_compute; reflexivity|].
  split; [vm_compute; reflexivity|]. vm_compute. discriminate.
Qed.

(** C6, counterexample: with "a" and "b" stored (114 bytes, limit 128),
    [Set("c", <60 byte string>)] evicts both to make room and succeeds:
    [Size] goes from 2 to 1 through an insert. *)
Lemma Set_decreases_Size :
  exists p p' : cache value queue,
    run sizeOf 1 (fresh option128)
      [(0, OpSet "a"%string val seconds20);
       (1, OpSet "b"%string val seconds20)] = Some p /\
    cache_Set sizeOf 3 p "c"%string (VString 60) seconds20 2 = Some (p', None) /\
    cache_Size p = 2 /\ cache_Size p' = 1.
Proof.
  do 2 eexists. split; [vm_compute; reflexivity|].
  split; [vm_compute; reflexivity|]. split; vm_compute; reflexivity.
Qed.

(** C10, counterexample: [DeepSize] of [make([]struct{}, 0, 1<<60)]
    wraps around to a negative [int64]; [Set] records it and adds it to
    the counter, which is negative afterwards. *)
Lemma Alloc_negative_after_hollow_slice :
  sizeOf v_hollow = - 2 ^ 63 + 24 /\
  exists p : cache value queue,
    run sizeOf 1 (fresh option128) [(0, OpSet "k"%string v_hollow 0)] = Some p /\
    items p !! "k"%string = Some (mkItem v_hollow 50000000 (- 2 ^ 63 + 49)) /\
    cache_Alloc p = - 2 ^ 63 + 49 /\
    cache_Alloc p < 0.
Proof.
  split; [vm_compute; reflexivity|].
  eexists. split; [vm_compute; reflexivity|].
  split; [vm_compute; reflexivity|]. split; vm_compute; reflexivity.
Qed.

(** The theorems above, at concrete stores. *)
Lemma failed_Set_keeps_evictions_witness :
  cache_Set sizeOf 2 (store_a option128 0 seconds20)
    "b"%string (VString 200) seconds20 1
    = Some (fresh option128, Some errEmptyQueue) /\
  (q_array (keyManager (fresh (V := value) option128)) = [] /\
   items (fresh (V := value) option128) ⊆ items (store_a option128 0 seconds20) /\
   opt (fresh (V := value) option128) = opt (store_a option128 0 seconds20) /\
   (fresh option128 = store_a option128 0 seconds20 <->
    q_array (keyManager (store_a option128 0 seconds20)) = [])).
Proof.
  assert (cache_Set sizeOf 2 (store_a option128 0 seconds20)
            "b"%string (VString 200) seconds20 1
          = Some (fresh option128, Some errEmptyQueue)) as Hset
    by (vm_compute; reflexivity).
  split; [exact Hset|].
  exact (failed_Set_keeps_evictions sizeOf 2 _ _ _ _ _ _ Hset).
Defined.

Lemma Set_expiration_witness :
  cache_Set sizeOf 1 (fresh option128) "a"%string val 0 1000
    = Some (store_a option128 1000 50000000, None) /\
  exists item,
    items (store_a option128 1000 50000000) !! "a"%string = Some item /\
    Object item = val /\
    Expiration item = 1000 + 50000000.
Proof.
  assert (cache_Set sizeOf 1 (fresh option128) "a"%string val 0 1000
          = Some (store_a option128 1000 50000000, None)) as Hset
    by (vm_compute; reflexivity).
  split; [exact Hset|].
  destruct (Set_expiration sizeOf 1 _ _ _ _ _ _ Hset)
    as (item & Hk & Hobj & Hdef & _).
  exists item. split; [exact Hk|]. split; [exact Hobj|].
  apply Hdef; [reflexivity | vm_compute; reflexivity |].
  vm_compute. split; discriminate.
Defined.

Lemma Get_expired_is_lazy_witness :
  items (store_a option128 0 1000000) !! "a"%string
    = Some (mkItem val (0 + 1000000) 57) /\
  cache_Get (store_a option128 0 1000000) 1000000000 "a"%string
    = (store_a option128 0 1000000, None).
Proof.
  assert (items (store_a option128 0 1000000) !! "a"%string
          = Some (mkItem val (0 + 1000000) 57)) as Hk
    by (vm_compute; reflexivity).
  split; [exact Hk|].
  refine (proj1 (Get_expired_is_lazy sizeOf _ 1000000000 _ _ Hk _ _));
    vm_compute; reflexivity.
Defined.

Lemma capacity_two_evicts_oldest_witness :
  Capacity optionCap2 = 2 /\
  exists p1 p2 p3 : cache value queue,
    cache_Set sizeOf 0 (fresh optionCap2) "1" val seconds20 0 = Some (p1, None) /\
    cache_Set sizeOf 0 p1 "2" val seconds20 1 = Some (p2, None) /\
    cache_Set sizeOf 0 p2 "3" val seconds20 2 = Some (p3, None) /\
    dom (items p3) = {[ "2"%string; "3"%string ]} /\
    q_array (keyManager p3) = ["2"%string; "3"%string].
Proof.
  split; [reflexivity|].
  destruct (capacity_two_evicts_oldest sizeOf 0 optionCap2 val val val
              seconds20 seconds20 seconds20 0 1 2)
    as (p1 & p2 & p3 & H1 & H2 & H3 & _ & _ & Hd & Hq & _).
  - reflexivity.
  - vm_compute. discriminate.
  - vm_compute. discriminate.
  - vm_compute. discriminate.
  - vm_compute. split; [reflexivity | discriminate].
  - exists p1, p2, p3. split_and!; assumption.
Defined.

Lemma Alloc_never_negative_witness :
  run sizeOf 1 (fresh option128)
    [(0, OpSet "a"%string val seconds20); (1, OpDelete "a"%string)]
    = Some (fresh option128) /\
  0 <= cache_Alloc (fresh (V := value) option128).
Proof.
  assert (run sizeOf 1 (fresh option128)
            [(0, OpSet "a"%string val seconds20); (1, OpDelete "a"%string)]
          = Some (fresh option128)) as Hrun by (vm_compute; reflexivity).
  split; [exact Hrun|].
  refine (proj1 (Alloc_never_negative sizeOf 1 option128 _ _ _ _ Hrun)).
  - apply Forall_cons_2; [vm_compute; discriminate|].
    apply Forall_cons_2; [vm_compute; discriminate|]. apply Forall_nil_2.
  - vm_compute. discriminate.
Defined.

(* ------------------------------------------------------------------ *)
(** ** The queue *)
(* ------------------------------------------------------------------ *)

Lemma remove_absent {T : Type} `{EqDecision T} (l : list T) (item : T) :
  item ∉ l -> remove l item = l.
Proof.
  induction l as [|other rest IH]; intros Hin; simpl; [done|].
  destruct (decide (other = item)) as [->|Hne].
  - exfalso. apply Hin, list_elem_of_here.
  - f_equal. apply IH. intros Hr. apply Hin. by apply list_elem_of_further.
Qed.

Lemma remove_app_fresh {T : Type} `{EqDecision T} (l : list T) (item : T) :
  item ∉ l -> remove (l ++ [item]) item = l.
Proof.
  induction l as [|other rest IH]; intros Hin; simpl.
  - by rewrite decide_True.
  - destruct (decide (other = item)) as [->|Hne].
    + exfalso. apply Hin, list_elem_of_here.
    + f_equal. apply IH. intros Hr. apply Hin. by apply list_elem_of_further.
Qed.

(** X1: [remove] drops the first element equal to the item and nothing
    else: the list splits around that first occurrence. *)
Theorem remove_first_occurrence {T : Type} `{EqDecision T}
    (l : list T) (item : T) :
  item ∈ l ->
  exists l1 l2,
    l = l1 ++ item :: l2 /\ (item ∉ l1) /\ remove l item = l1 ++ l2.
Proof.
  induction l as [|other rest IH]; intros Hin.
  - by apply elem_of_nil in Hin.
  - simpl. destruct (decide (other = item)) as [->|Hne].
    + exists [], rest. split_and!; [done| |done]. apply not_elem_of_nil.
    + apply elem_of_cons in Hin as [->|Hin]; [done|].
      destruct (IH Hin) as (l1 & l2 & -> & Hl1 & Hrm).
      exists (other :: l1), l2. split_and!; [done| |by rewrite Hrm].
      intros [->|Hx]%elem_of_cons; [done|]. by apply Hl1.
Qed.

Lemma remove_first_occurrence_witness :
  exists l1 l2 : list string,
    ["1"; "2"; "3"; "2"]%string = l1 ++ "2"%string :: l2 /\ ("2"%string ∉ l1) /\
    remove ["1"; "2"; "3"; "2"]%string "2"%string = l1 ++ l2.
Proof.
  apply (remove_first_occurrence ["1"; "2"; "3"; "2"]%string "2"%string).
  apply list_elem_of_further, list_elem_of_here.
Defined.

Lemma elem_of_remove_NoDup {T : Type} `{EqDecision T} (l : list T) (item x : T) :
  NoDup l -> x ∈ remove l item <-> x ∈ l /\ x <> item.
Proof.
  induction l as [|other rest IH]; intros Hnd; simpl.
  - split; [by intros ?%elem_of_nil | by intros [?%elem_of_nil _]].
  - apply NoDup_cons in Hnd as [Hnot Hnd].
    destruct (decide (other = item)) as [->|Hne].
    + split.
      * intros Hx. split; [by apply list_elem_of_further|]. by intros ->.
      * intros [[->|Hx]%elem_of_cons Hne]; done.
    + rewrite !elem_of_cons, IH by done. split.
      * intros [->|[Hx Hn]]; split; try done; [by left|by right].
      * intros [[->|Hx] Hn]; [by left|by right].
Qed.

Lemma NoDup_remove {T : Type} `{EqDecision T} (l : list T) (item : T) :
  NoDup l -> NoDup (remove l item).
Proof.
  induction l as [|other rest IH]; intros Hnd; simpl; [done|].
  apply NoDup_cons in Hnd as [Hnot Hnd].
  destruct (decide (other = item)); [done|].
  apply NoDup_cons. split; [|by apply IH].
  rewrite elem_of_remove_NoDup by done. by intros [? _].
Qed.




(** X2: calling [Add] with each of a list of keys on a new queue keeps
    them all when the bound is 0, and otherwise keeps the first [size]
    of them and refuses the rest. *)
Theorem queue_Add_fills_up_to_bound (size : Z) (keys : list string) :
  0 <= size ->
  q_array (addAll (NewQueue size) keys) =
    if decide (size = 0) then keys else take (Z.to_nat size) keys.
Proof.
  intros Hsize.
  assert (forall keys q, q_size q = size ->
            (if decide (size = 0) then True
             else (length (q_array q) <= Z.to_nat size)%nat) ->
            q_array (addAll q keys) =
              if decide (size = 0) then q_array q ++ keys
              else q_array q ++ take (Z.to_nat size - length (q_array q)) keys)
    as Hgen.
  { clear keys. induction keys as [|key keys IH]; intros q Hq Hlen.
    - simpl. destruct (decide _); by rewrite ?take_nil, app_nil_r.
    - change (addAll q (key :: keys)) with (addAll (queue_Add q key).2 keys).
      unfold queue_Add, queue_Size. rewrite Hq.
      destruct (decide (size = 0)) as [->|Hne].
      + simpl. rewrite IH; [|done..]. simpl. by rewrite <- app_assoc.
      + rewrite (bool_decide_eq_true_2 (size <> 0)) by done. simpl.
        destruct (bool_decide (Z.of_nat (length (q_array q)) >= size)) eqn:Hfull.
        * apply bool_decide_eq_true in Hfull. simpl.
          rewrite IH by done.
          replace (Z.to_nat size - length (q_array q))%nat with 0%nat by lia.
          done.
        * apply bool_decide_eq_false in Hfull. simpl.
          rewrite IH; [|done|]; simpl.
          -- rewrite <- app_assoc. f_equal. rewrite length_app. simpl.
             replace (Z.to_nat size - length (q_array q))%nat
               with (S (Z.to_nat size - (length (q_array q) + 1)))%nat by lia.
             done.
          -- rewrite length_app. simpl. lia. }
  rewrite (Hgen keys (NewQueue size)); [|done|].
  - simpl. destruct (decide _); [done|]. by rewrite Nat.sub_0_r.
  - destruct (decide _); [done|]. simpl. lia.
Qed.

Lemma queue_Add_fills_up_to_bound_witness :
  0 <= 3 /\
  q_array (addAll (NewQueue 3) ["k0"; "k1"; "k2"; "k3"; "k4"]%string)
    = ["k0"; "k1"; "k2"]%string.
Proof.
  split; [lia|].
  exact (queue_Add_fills_up_to_bound 3 ["k0"; "k1"; "k2"; "k3"; "k4"]%string
           ltac:(lia)).
Defined.

(** X3: [Delete] undoes an accepted [Add] of a key the queue did not
    hold. *)
Theorem queue_Add_Delete_round_trip (q : queue) (key : string) :
  key ∉ q_array q ->
  (queue_Add q key).1 = true ->
  queue_Delete (queue_Add q key).2 key = q.
Proof.
  intros Hin. unfold queue_Add.
  destruct (_ && _); [done|]. intros _. simpl.
  unfold queue_Delete, queue_Enqueue. simpl.
  rewrite remove_app_fresh by done. by destruct q.
Qed.

Lemma queue_Add_Delete_round_trip_witness :
  queue_Delete (queue_Add (mkQueue 0 ["a"; "b"]%string) "c"%string).2 "c"%string
    = mkQueue 0 ["a"; "b"]%string.
Proof.
  apply queue_Add_Delete_round_trip; [|reflexivity].
  intros [Hx|[Hx|Hx%elem_of_nil]%elem_of_cons]%elem_of_cons; done.
Defined.

(** X4: on a queue that is not empty, [Enqueue] leaves the front alone:
    [Peek] answers the same, [Dequeue] takes the same key, and [Dequeue]
    returns what [Peek] announces. *)
Theorem queue_Enqueue_keeps_front (q : queue) (values : list string) :
  q_array q <> [] ->
  queue_Peek (queue_Enqueue q values) = queue_Peek q /\
  queue_Dequeue (queue_Enqueue q values) =
    (queue_Enqueue (queue_Dequeue q).1 values, (queue_Dequeue q).2) /\
  (queue_Dequeue q).2 = queue_Peek q.
Proof.
  intros Hne. destruct q as [size [|front rest]]; [done|].
  unfold queue_Peek, queue_IsEmpty, queue_Size, queue_Dequeue, queue_Enqueue.
  simpl. done.
Qed.

Lemma queue_Enqueue_keeps_front_witness :
  queue_Peek (queue_Enqueue (mkQueue 0 ["a"]%string) ["b"; "c"]%string)
    = queue_Peek (mkQueue 0 ["a"]%string).
Proof.
  exact (proj1 (queue_Enqueue_keeps_front (mkQueue 0 ["a"]%string)
                  ["b"; "c"]%string ltac:(discriminate))).
Defined.

(* ------------------------------------------------------------------ *)
(** ** Lookups, Add, Replace, Delete *)
(* ------------------------------------------------------------------ *)

Section Lookups.
Context {V K : Type} `{!KeyManager K}.
Variable DeepSizeV : V -> Z.
Implicit Types (p : cache V K) (k : string) (now d : Z).

Lemma cache_Get_is_getItem p now k :
  (cache_Get p now k).2 = Object <$> cache_getItem p now k /\
  cache_get p now k = Object <$> cache_getItem p now k.
Proof.
  unfold cache_Get, cache_get, cache_getItem.
  destruct (items p !! k) as [item|]; [|done].
  destruct (decide (Expiration item > 0)); [|done].
  by destruct (decide (now > Expiration item)).
Qed.

(** X5: [Get], [get], [getItem] and [GetWithExpiration] find the same
    entries, and [Get] leaves the store as it is. *)
Theorem lookups_agree p now k :
  (cache_Get p now k).1 = p /\
  (cache_Get p now k).2 = cache_get p now k /\
  cache_get p now k = Object <$> cache_getItem p now k /\
  fst <$> cache_GetWithExpiration p now k = cache_get p now k.
Proof.
  unfold cache_Get, cache_get, cache_getItem, cache_GetWithExpiration.
  destruct (items p !! k) as [item|]; [|done].
  destruct (decide (Expiration item > 0)); [|done].
  by destruct (decide (now > Expiration item)).
Qed.

(** X6: [Add] on a key that [Get] finds returns the already-exists error
    and the store unchanged. *)
Theorem Add_refuses_live_key (fuel : nat) p k (x v : V) d now :
  (cache_Get p now k).2 = Some v ->
  cache_Add DeepSizeV fuel p k x d now =
    Some (p, Some ("Item " +:+ k +:+ " already exists")%string).
Proof.
  destruct (cache_Get_is_getItem p now k) as [-> <-].
  intros Hget. unfold cache_Add. by rewrite Hget.
Qed.


(** X7: [Replace] on a key that [Get] does not find (absent or expired)
    returns the doesn't-exist error and the store unchanged. *)
Theorem Replace_refuses_missing_key (fuel : nat) p k (x : V) d now :
  (cache_Get p now k).2 = None ->
  cache_Replace DeepSizeV fuel p k x d now =
    Some (p, Some ("Item " +:+ k +:+ " doesn't exist")%string).
Proof.
  destruct (cache_Get_is_getItem p now k) as [-> _].
  unfold cache_Replace. by destruct (cache_getItem p now k).
Qed.

(** X9: [Delete] of a stored key removes that entry and no other,
    unregisters the key, deducts the entry's size with the clamp at
    zero, and calls the callback exactly when one is set. *)
Theorem Delete_removes_the_entry p k (item : Item V) :
  items p !! k = Some item ->
  items (cache_Delete p k).1 = delete k (items p) /\
  (forall t, (cache_Get (cache_Delete p k).1 t k).2 = None) /\
  (forall k', k' <> k -> items (cache_Delete p k).1 !! k' = items p !! k') /\
  (cache_Delete p k).2 =
    (if onEvicted p then Some (k, Some (Object item)) else None) /\
  keyManager (cache_Delete p k).1 = km_Delete (keyManager p) k /\
  memUsage (cache_Delete p k).1 =
    Z.max 0 (Int64.sub (memUsage p) (Mem item)).
Proof.
  intros Hk.
  assert (items (cache_Delete p k).1 = delete k (items p)) as Hit.
  { unfold cache_Delete.
    pose proof (cache_delete_items p k) as Hd.
    by destruct (cache_delete p k) as [p1 [ov ev]]. }
  split_and!.
  - done.
  - intros t. unfold cache_Get. by rewrite Hit, lookup_delete_eq.
  - intros k' Hne. by rewrite Hit, lookup_delete_ne.
  - unfold cache_Delete, cache_delete. rewrite Hk.
    unfold cache_deductMemUsage. by destruct (decide _).
  - unfold cache_Delete, cache_delete. rewrite Hk.
    unfold cache_deductMemUsage. by destruct (decide _).
  - unfold cache_Delete, cache_delete. rewrite Hk.
    unfold cache_deductMemUsage. cbn [memUsage set_items].
    generalize (Int64.sub (memUsage p) (Mem item)) as left. intros left.
    destruct (decide _); cbn; lia.
Qed.

(** X10: after a successful [Set], [Get] returns the value at every time
    up to the expiration, and at every time when the entry does not
    expire. *)
Theorem Set_then_Get (fuel : nat) p k (v : V) d now p' t :
  cache_Set DeepSizeV fuel p k v d now = Some (p', None) ->
  expirationOf p now d <= 0 \/ t <= expirationOf p now d ->
  cache_Get p' t k = (p', Some v).
Proof.
  intros Hset Ht. apply cache_set_entry in Hset.
  unfold cache_Get. rewrite Hset. simpl.
  destruct (decide (expirationOf p now d > 0)); [|done].
  destruct (decide (t > expirationOf p now d)); [lia|done].
Qed.


(** X11: [SetDefault] is [Set] with a zero ttl. *)
Theorem SetDefault_is_Set_zero (fuel : nat) p k (x : V) now :
  cache_SetDefault DeepSizeV fuel p k x now =
    fst <$> cache_Set DeepSizeV fuel p k x ZeroExpiration now.
Proof.
  unfold cache_SetDefault, cache_Set, cache_set. f_equal.
  unfold expirationOf. rewrite (decide_True (P := ZeroExpiration = ZeroExpiration)) by done.
  destruct (decide (DefaultExpiration (opt p) = ZeroExpiration)) as [->|]; done.
Qed.

(** X12: for an entry whose expiration is not negative, [Item.Expired]
    is true exactly when [getItem] does not return the entry. *)
Theorem Expired_agrees_with_getItem p now k (item : Item V) :
  items p !! k = Some item ->
  0 <= Expiration item ->
  (Item_Expired item now = true <-> cache_getItem p now k = None) /\
  (Item_Expired item now = false <-> cache_getItem p now k = Some item).
Proof.
  intros Hk He. unfold Item_Expired, cache_getItem. rewrite Hk.
  destruct (decide (Expiration item = 0)) as [H0|H0].
  - rewrite decide_False by lia. split; split; done.
  - rewrite decide_True by lia.
    destruct (decide (now > Expiration item)).
    + rewrite bool_decide_eq_true_2 by done. split; split; done.
    + rewrite bool_decide_eq_false_2 by done. split; split; done.
Qed.
End Lookups.

(* ------------------------------------------------------------------ *)
(** ** Accounting *)
(* ------------------------------------------------------------------ *)


Section SumMem.
Context {V : Type}.
Implicit Types (m : gmap string (Item V)).

Lemma sumMem_empty : sumMem (∅ : gmap string (Item V)) = 0.
Proof. apply map_fold_empty. Qed.

Lemma sumMem_insert m k (item : Item V) :
  m !! k = None -> sumMem (<[k := item]> m) = Mem item + sumMem m.
Proof.
  intros Hk. unfold sumMem. rewrite map_fold_insert_L; [done| |done].
  intros. lia.
Qed.

Lemma sumMem_delete m k (item : Item V) :
  m !! k = Some item -> sumMem m = Mem item + sumMem (delete k m).
Proof.
  intros Hk. rewrite <- (insert_delete_id m k item Hk) at 1.
  apply sumMem_insert, lookup_delete_eq.
Qed.

Lemma sumMem_nonneg m :
  map_Forall (fun _ item => 0 <= Mem item) m -> 0 <= sumMem m.
Proof.
  induction m as [|k item m Hk IH] using map_ind; intros Hall.
  - by rewrite sumMem_empty.
  - rewrite sumMem_insert by done.
    apply map_Forall_insert in Hall as [Hitem Hall]; [|done].
    specialize (IH Hall). lia.
Qed.
End SumMem.

Section Accounting.
Context {V K : Type} `{!KeyManager K}.
Variable DeepSizeV : V -> Z.
Implicit Types (p : cache V K) (k : string) (now d : Z).

Lemma cache_delete_accountedOK p k :
  accountedOK p -> accountedOK (cache_delete p k).1 /\
  memUsage (cache_delete p k).1 <= memUsage p /\
  (forall item, items p !! k = Some item ->
     memUsage (cache_delete p k).1 = memUsage p - Mem item).
Proof.
  intros (Hacc & Hall & Hmax). unfold accounted in Hacc.
  unfold cache_delete. destruct (items p !! k) as [v|] eqn:Hk; simpl.
  2:{ split; [done|]. split; [lia|]. done. }
  pose proof (sumMem_delete _ _ _ Hk) as Hsum.
  pose proof (Hall k v Hk) as Hv. simpl in Hv.
  assert (map_Forall (fun _ item => 0 <= Mem item) (delete k (items p)))
    as Hall' by (by apply map_Forall_delete).
  pose proof (sumMem_nonneg _ Hall') as Hpos.
  unfold cache_deductMemUsage. cbn [memUsage set_items].
  rewrite Int64_sub_exact by (apply Int64_nonneg_in_range; lia).
  destruct (decide _); [lia|].
  split; [|split].
  - split; [|split].
    + unfold accounted. cbn. lia.
    + cbn. done.
    + cbn. lia.
  - cbn. lia.
  - intros item [= <-]. cbn. lia.
Qed.

(** The eviction loop, started with what is missing, ends with room for
    the new entry. *)
Lemma evictLoop_makes_room (fuel : nat) p now (size r : Z) p' :
  accountedOK p ->
  0 <= size -> 0 < MemoryLimit (opt p) <= Int64.max_int ->
  memUsage p + size <= Int64.max_int ->
  r = memUsage p + size - MemoryLimit (opt p) ->
  evictLoop fuel p now r = Some (p', None) ->
  accountedOK p' /\ memUsage p' + size <= MemoryLimit (opt p') /\
  memUsage p' <= memUsage p /\ opt p' = opt p.
Proof.
  intros Hok Hsize. revert p r Hok.
  induction fuel as [|fuel IH]; intros p r Hok Hlim Hsum Hr; simpl.
  - destruct (decide (r > 0)); [discriminate|]. intros [= <-].
    split_and!; try done; lia.
  - destruct (decide (r > 0)); [|intros [= <-]; split_and!; try done; lia].
    destruct (km_Peek (keyManager p)) as [key [err|]]; [discriminate|].
    destruct (decide (key = ""%string)); [discriminate|].
    destruct (cache_getItem p now key) as [item|] eqn:Hget.
    + apply cache_getItem_Some in Hget.
      destruct (cache_delete_accountedOK p key Hok) as (Hok' & Hle & Heq).
      specialize (Heq item Hget).
      assert (0 <= Mem item) as Hmem by (exact (proj1 (proj2 Hok) key item Hget)).
      assert (0 <= memUsage (cache_delete p key).1).
      { destruct Hok' as (Hacc' & Hall' & _). rewrite Hacc'.
        by apply sumMem_nonneg. }
      intros Hloop. apply IH in Hloop; try done.
      * rewrite cache_delete_opt in Hloop.
        destruct Hloop as (? & ? & ? & ?). split_and!; try done; lia.
      * by rewrite cache_delete_opt.
      * lia.
      * rewrite cache_delete_opt, Heq, Hr.
        rewrite Int64_sub_exact; [lia|].
        unfold Int64.in_range, Int64.min_int, Int64.max_int in *. lia.
    + by apply IH.
Qed.

(** X16: when the counter is the sum of the sizes, a successful [Set]
    leaves the counter within the memory limit. *)
Theorem Set_within_limit_when_accounted (fuel : nat) p k (v : V) d now p' :
  accountedOK p ->
  0 < MemoryLimit (opt p) <= Int64.max_int ->
  0 <= calculateItemSize DeepSizeV k v ->
  memUsage p + calculateItemSize DeepSizeV k v <= Int64.max_int ->
  cache_Set DeepSizeV fuel p k v d now = Some (p', None) ->
  cache_Alloc p' <= MemoryLimit (opt p').
Proof.
  intros Hok [Hl0 Hl1] Hsize Hsum. unfold cache_Set, cache_set.
  set (size := calculateItemSize DeepSizeV k v) in *.
  destruct (capacityCheck p) as [p1|err] eqn:Hcap; [|discriminate].
  assert (accountedOK p1 /\ memUsage p1 <= memUsage p /\ opt p1 = opt p)
    as (Hok1 & Hle1 & Hopt1).
  { unfold capacityCheck in Hcap. destruct (decide _).
    - destruct (km_Peek (keyManager p)) as [key [err|]]; [discriminate|].
      injection Hcap as <-.
      destruct (cache_delete_accountedOK p key Hok) as (? & ? & _).
      by rewrite cache_delete_opt.
    - by injection Hcap as <-. }
  assert (0 <= memUsage p1).
  { destruct Hok1 as (Hacc & Hall & _). rewrite Hacc. by apply sumMem_nonneg. }
  unfold memoryCheck.
  rewrite Int64_add_exact by (apply Int64_nonneg_in_range; lia).
  destruct (decide _) as [[_ Hge]|Hno].
  - destruct (evictLoop _ _ _ _) as [[p2 [err|]]|] eqn:Hloop; try discriminate.
    intros [= <-].
    apply (evictLoop_makes_room _ _ _ size) in Hloop
      as (Hok2 & Hroom & Hle2 & Hopt2); try done; try lia.
    2:{ rewrite Hopt1. lia. }
    2:{ rewrite Int64_sub_exact; [done|].
        unfold Int64.in_range, Int64.min_int, Int64.max_int in *.
        rewrite Hopt1. lia. }
    assert (0 <= memUsage p2).
    { destruct Hok2 as (Hacc & Hall & _). rewrite Hacc. by apply sumMem_nonneg. }
    unfold cache_Alloc. rewrite writeEntry_memUsage, writeEntry_opt.
    rewrite Int64_add_exact by (apply Int64_nonneg_in_range; lia). lia.
  - intros [= <-]. unfold cache_Alloc.
    rewrite writeEntry_memUsage, writeEntry_opt.
    rewrite Int64_add_exact by (apply Int64_nonneg_in_range; lia).
    rewrite Hopt1 in *. lia.
Qed.
End Accounting.

(* ------------------------------------------------------------------ *)
(** ** Expiring entries *)
(* ------------------------------------------------------------------ *)

Section ExpireAll.
Context {V K : Type} `{!KeyManager K}.
Implicit Types (p : cache V K) (k : string) (now d : Z).


Lemma expireStep_items now (acc : cache V K * list (string * option V))
    (kv : string * Item V) :
  items (expireStep now acc kv).1 =
    if decide (expiredAt now kv.2) then delete kv.1 (items acc.1)
    else items acc.1.
Proof.
  unfold expireStep, expiredAt. destruct (decide _); [|done].
  pose proof (cache_delete_items acc.1 kv.1) as Hd.
  by destruct (cache_delete acc.1 kv.1) as [p1 [ov ev]].
Qed.

Lemma expire_lookup now (l : list (string * Item V))
    (acc : cache V K * list (string * option V)) i (x : Item V) :
  items (foldl (expireStep now) acc l).1 !! i = Some x <->
  items acc.1 !! i = Some x /\ ~ (exists v, (i, v) ∈ l /\ expiredAt now v).
Proof.
  revert acc. induction l as [|[k v] l IH]; intros acc; simpl.
  - split; [|by intros [? _]]. intros Hx. split; [done|].
    by intros (v & Hv%elem_of_nil & _).
  - rewrite IH, expireStep_items. simpl. split.
    + intros [Hi Hno]. destruct (decide (expiredAt now v)) as [He|He].
      * apply lookup_delete_Some in Hi as [Hne Hi]. split; [done|].
        intros (v' & [[= <- <-]|Hin]%elem_of_cons & Hv'); [done|].
        apply Hno. eauto.
      * split; [done|].
        intros (v' & [[= <- <-]|Hin]%elem_of_cons & Hv'); [done|].
        apply Hno. eauto.
    + intros [Hi Hno]. split.
      * destruct (decide (expiredAt now v)) as [He|He]; [|done].
        apply lookup_delete_Some. split; [|done]. intros <-.
        apply Hno. exists v. split; [apply list_elem_of_here | done].
      * intros (v' & Hin & Hv'). apply Hno. exists v'.
        split; [by apply list_elem_of_further | done].
Qed.

(** X13: [DeleteExpired] leaves exactly the entries that have not
    expired. *)
Theorem DeleteExpired_removes_exactly_the_expired p now :
  items (cache_DeleteExpired p now).1 =
    filter (fun kv => ~ expiredAt now kv.2) (items p).
Proof.
  apply map_eq. intros i. apply option_eq. intros x.
  unfold cache_DeleteExpired. rewrite expire_lookup. simpl.
  rewrite map_lookup_filter_Some. simpl. split.
  - intros [Hi Hno]. split; [done|]. intros He. apply Hno. exists x.
    split; [by apply elem_of_map_to_list | done].
  - intros [Hi Hno]. split; [done|]. intros (v & Hin & Hv).
    apply elem_of_map_to_list in Hin. congruence.
Qed.
End ExpireAll.

(* ------------------------------------------------------------------ *)
(** ** Consistency of counter, queue and entries *)
(* ------------------------------------------------------------------ *)

Section Consistency.
Context {V : Type}.
Variable DeepSizeV : V -> Z.
Implicit Types (p : cache V queue) (k : string) (now d : Z).

Lemma cache_delete_consistent p k :
  consistent p -> consistent (cache_delete p k).1.
Proof.
  intros (Hok & [Hnd Hkeys] & Hsz).
  split; [by apply cache_delete_accountedOK|].
  split; [|by rewrite cache_delete_q_size].
  unfold tracked. rewrite cache_delete_queue, cache_delete_items.
  destruct (items p !! k) as [item|] eqn:Hk.
  - split; [by apply NoDup_remove|]. intros x.
    rewrite elem_of_remove_NoDup by done. rewrite Hkeys.
    rewrite lookup_delete_is_Some. naive_solver.
  - rewrite delete_id by done. done.
Qed.

Lemma expire_consistent now (l : list (string * Item V))
    (acc : cache V queue * list (string * option V)) :
  consistent acc.1 -> consistent (foldl (expireStep now) acc l).1.
Proof.
  revert acc. induction l as [|kv l IH]; intros acc Hc; simpl; [done|].
  apply IH. unfold expireStep. destruct (decide _); [|done].
  pose proof (cache_delete_consistent acc.1 kv.1 Hc) as Hd.
  by destruct (cache_delete acc.1 kv.1) as [p1 [ov ev]].
Qed.

(** X14: [Delete] and [DeleteExpired] keep the counter equal to the sum
    of the sizes and the queue equal to the keys. *)
Theorem removals_keep_consistency p k now :
  consistent p ->
  consistent (cache_Delete p k).1 /\
  consistent (cache_DeleteExpired p now).1.
Proof.
  intros Hc. split.
  - unfold cache_Delete.
    pose proof (cache_delete_consistent p k Hc) as Hd.
    by destruct (cache_delete p k) as [p1 [ov ev]].
  - by apply expire_consistent.
Qed.

Lemma evictLoop_consistent (fuel : nat) p now (r : Z) p' e k :
  consistent p -> items p !! k = None ->
  evictLoop fuel p now r = Some (p', e) ->
  consistent p' /\ items p' !! k = None /\ memUsage p' <= memUsage p.
Proof.
  revert p r. induction fuel as [|fuel IH]; intros p r Hc Hk; simpl.
  - destruct (decide _); [discriminate|]. intros [= <- <-]. split_and!; [done..|lia].
  - destruct (decide _); [|intros [= <- <-]; split_and!; [done..|lia]].
    change (km_Peek (keyManager p)) with (queue_Peek (keyManager p)).
    destruct (queue_Peek (keyManager p)) as [key [err|]].
    + intros [= <- <-]. split_and!; [done..|lia].
    + destruct (decide (key = ""%string));
        [intros [= <- <-]; split_and!; [done..|lia]|].
      destruct (cache_getItem p now key) as [item|]; [|by apply IH].
      intros Hloop. apply IH in Hloop as (? & ? & ?).
      * split_and!; [done..|].
        destruct (cache_delete_accountedOK p key (proj1 Hc)) as (_ & ? & _). lia.
      * by apply cache_delete_consistent.
      * rewrite cache_delete_items. by apply lookup_delete_None; right.
Qed.

Lemma writeEntry_consistent p k (v : V) (e size : Z) :
  consistent p -> items p !! k = None ->
  0 <= size -> memUsage p + size <= Int64.max_int ->
  consistent (writeEntry p k v e size).
Proof.
  intros ((Hacc & Hall & Hmax) & [Hnd Hkeys] & Hsz) Hk Hsize Hsum.
  assert (0 <= memUsage p) by (rewrite Hacc; by apply sumMem_nonneg).
  destruct (writeEntry_queue p k v e size Hsz) as [Hq Hz].
  split; [|split; [|done]].
  - split; [|split].
    + unfold accounted. rewrite writeEntry_memUsage, writeEntry_items.
      rewrite sumMem_insert by done. cbn [Mem].
      rewrite Int64_add_exact by (apply Int64_nonneg_in_range; lia).
      rewrite Hacc. lia.
    + rewrite writeEntry_items. by apply map_Forall_insert_2.
    + rewrite writeEntry_memUsage.
      rewrite Int64_add_exact by (apply Int64_nonneg_in_range; lia). lia.
  - unfold tracked. rewrite Hq, writeEntry_items. split.
    + apply NoDup_app. split; [done|]. split; [|apply NoDup_singleton].
      intros x Hx ->%list_elem_of_singleton.
      apply Hkeys in Hx. rewrite Hk in Hx. by destruct Hx.
    + intros x. rewrite elem_of_app, list_elem_of_singleton, Hkeys.
      rewrite lookup_insert_is_Some. destruct (decide (k = x)); naive_solver.
Qed.

(** X15: [Set] of a key that is not in the map keeps the counter equal
    to the sum of the sizes and the queue equal to the keys, whether it
    succeeds or fails. *)
Theorem Set_of_new_key_keeps_consistency (fuel : nat) p k (v : V) d now p' e :
  consistent p -> items p !! k = None ->
  0 <= calculateItemSize DeepSizeV k v ->
  memUsage p + calculateItemSize DeepSizeV k v <= Int64.max_int ->
  cache_Set DeepSizeV fuel p k v d now = Some (p', e) ->
  consistent p'.
Proof.
  intros Hc Hk Hsize Hsum. unfold cache_Set, cache_set.
  destruct (capacityCheck_cases p)
    as [Hcap | [[_ Hcap] | (key & rest & _ & Hcap)]]; rewrite Hcap.
  - unfold memoryCheck. destruct (decide _).
    + destruct (evictLoop _ _ _ _) as [[p2 [err|]]|] eqn:Hloop; [| |discriminate];
        intros [= <- <-];
        apply (evictLoop_consistent _ _ _ _ _ _ k) in Hloop as (? & ? & ?);
        try done.
      apply writeEntry_consistent; try done. lia.
    + intros [= <- <-]. by apply writeEntry_consistent.
  - by intros [= <- <-].
  - pose proof (cache_delete_consistent p key Hc) as Hc1.
    assert (items (cache_delete p key).1 !! k = None) as Hk1.
    { rewrite cache_delete_items. by apply lookup_delete_None; right. }
    destruct (cache_delete_accountedOK p key (proj1 Hc)) as (_ & Hle & _).
    unfold memoryCheck. destruct (decide _).
    + destruct (evictLoop _ _ _ _) as [[p2 [err|]]|] eqn:Hloop; [| |discriminate];
        intros [= <- <-];
        apply (evictLoop_consistent _ _ _ _ _ _ k) in Hloop as (? & ? & ?);
        try done.
      apply writeEntry_consistent; try done. lia.
    + intros [= <- <-]. apply writeEntry_consistent; try done. lia.
Qed.

Lemma fresh_consistent (option : Option) : consistent (fresh (V := V) option).
Proof.
  split; [|split; [|done]].
  - split; [|split]; simpl.
    + unfold accounted. simpl. symmetry. apply sumMem_empty.
    + apply map_Forall_empty.
    + done.
  - split; simpl; [apply NoDup_nil_2|]. intros x.
    split; [by intros ?%elem_of_nil|]. intros [y Hy]. simpl in Hy.
    by rewrite lookup_empty in Hy.
Qed.
End Consistency.

(* ------------------------------------------------------------------ *)
(** ** Returning and not returning *)
(* ------------------------------------------------------------------ *)

Section AnyManager.
Context {V K : Type} `{!KeyManager K}.
Variable DeepSizeV : V -> Z.
Implicit Types (p : cache V K) (k : string) (now d : Z).

(** X18: when [Set] must free memory and the key manager hands it a
    key that is not a live entry, [Set] never returns. *)
Theorem Set_never_returns_on_dead_front (fuel : nat) p k (v : V) d now key :
  ~ (Capacity (opt p) > 0 /\ cache_Size p >= Capacity (opt p)) ->
  MemoryLimit (opt p) > 0 ->
  Int64.sub (Int64.add (memUsage p) (calculateItemSize DeepSizeV k v))
            (MemoryLimit (opt p)) > 0 ->
  Int64.add (memUsage p) (calculateItemSize DeepSizeV k v)
    >= MemoryLimit (opt p) ->
  km_Peek (keyManager p) = (key, None) ->
  key <> ""%string ->
  cache_getItem p now key = None ->
  cache_Set DeepSizeV fuel p k v d now = None.
Proof.
  intros Hcap Hlim Hneed Hge Hpeek Hkey Hdead.
  unfold cache_Set, cache_set, capacityCheck, memoryCheck.
  rewrite decide_False by done. rewrite decide_True by done.
  by rewrite (evictLoop_spins fuel _ _ _ key).
Qed.
End AnyManager.

Section NoopManager.
Context {V : Type}.
Variable DeepSizeV : V -> Z.
Implicit Types (p : cache V noop) (k : string) (now d : Z).

(** X20: with the no-op key manager, a [Set] that must free memory
    fails with invalid key and leaves the store unchanged. *)
Theorem noop_Set_fails_when_memory_is_short (fuel : nat) p k (v : V) d now :
  ~ (Capacity (opt p) > 0 /\ cache_Size p >= Capacity (opt p)) ->
  MemoryLimit (opt p) > 0 ->
  Int64.sub (Int64.add (memUsage p) (calculateItemSize DeepSizeV k v))
            (MemoryLimit (opt p)) > 0 ->
  Int64.add (memUsage p) (calculateItemSize DeepSizeV k v)
    >= MemoryLimit (opt p) ->
  cache_Set DeepSizeV (S fuel) p k v d now = Some (p, Some "invalid key"%string).
Proof.
  intros Hcap Hlim Hneed Hge.
  unfold cache_Set, cache_set, capacityCheck, memoryCheck.
  rewrite decide_False by done. rewrite decide_True by done.
  simpl. by rewrite decide_True by done.
Qed.
End NoopManager.

Section QueueManager.
Context {V : Type}.
Variable DeepSizeV : V -> Z.
Implicit Types (p : cache V queue) (k : string) (now d : Z).

(** X17: [Set] of an entry larger than the memory limit into a fresh
    store fails with the queue's empty error and leaves the store
    fresh. *)
Theorem Set_oversized_into_fresh (fuel : nat) (option : Option) k (v : V) d now :
  0 < MemoryLimit option < calculateItemSize DeepSizeV k v ->
  cache_Set DeepSizeV (S fuel) (fresh option) k v d now
    = Some (fresh option, Some errEmptyQueue).
Proof.
  intros [Hlim Hsize]. unfold cache_Set, cache_set, capacityCheck, memoryCheck.
  set (size := calculateItemSize DeepSizeV k v) in *.
  assert (Int64.in_range size) as Hr by apply Int64_wrap_range.
  clearbody size.
  rewrite decide_False.
  2:{ unfold cache_Size. simpl. rewrite map_size_empty. lia. }
  cbn [memUsage fresh opt].
  rewrite Int64_add_exact by done.
  rewrite decide_True by lia.
  rewrite Int64_sub_exact.
  2:{ unfold Int64.in_range, Int64.min_int, Int64.max_int in *. lia. }
  simpl. by rewrite decide_True by lia.
Qed.

(** X21: [New] stores the initial data without counting or queueing
    them; when they already fill the capacity, every [Set] fails with
    the queue's empty error. *)
Theorem New_initData_is_not_tracked (option : Option)
    (initData : gmap string (Item V)) p :
  New option initData = inl p ->
  items p = initData /\ cache_Alloc p = 0 /\ q_array (keyManager p) = [] /\
  (forall (fuel : nat) k (v : V) d now,
     Capacity option > 0 -> Z.of_nat (size initData) >= Capacity option ->
     cache_Set DeepSizeV fuel p k v d now = Some (p, Some errEmptyQueue)).
Proof.
  unfold New, NewKeyManager. destruct (decide _); [discriminate|].
  destruct (_ || _); [|discriminate]. intros [= <-].
  split_and!; [done..|]. intros fuel k v d now Hcap Hsize.
  unfold cache_Set, cache_set, capacityCheck.
  rewrite decide_True by done. done.
Qed.

(** While every key of the queue is a live entry at every reading of the
    clock, the loop makes progress at every turn. *)
Lemma evictLoopAt_returns (fuel : nat) p (clock : nat -> Z) (i : nat) (r : Z) :
  NoDup (q_array (keyManager p)) ->
  (forall key (j : nat), key ∈ q_array (keyManager p) ->
     (i <= j < i + length (q_array (keyManager p)))%nat ->
     is_Some (cache_getItem p (clock j) key)) ->
  (length (q_array (keyManager p)) < fuel)%nat ->
  is_Some (evictLoopAt fuel p clock i r).
Proof.
  revert p i r. induction fuel as [|fuel IH]; intros p i r Hnd Hlive Hfuel; [lia|].
  simpl. destruct (decide _); [|eauto].
  change (km_Peek (keyManager p)) with (queue_Peek (keyManager p)).
  destruct (queue_Peek_cases (keyManager p))
    as [[Hq ->] | (key & rest & Hq & ->)]; [eauto|].
  destruct (decide (key = ""%string)); [eauto|].
  destruct (Hlive key i) as [item Hitem].
  { rewrite Hq. apply list_elem_of_here. }
  { rewrite Hq. simpl. lia. }
  rewrite Hitem. rewrite Hq in Hnd, Hfuel.
  apply NoDup_cons in Hnd as [Hnot Hnd].
  assert (q_array (keyManager (cache_delete p key).1) = rest) as Hq'.
  { rewrite cache_delete_queue, Hq.
    rewrite (cache_getItem_Some _ _ _ _ Hitem). simpl.
    by rewrite decide_True. }
  apply IH; rewrite Hq'; [done| |simpl in Hfuel; lia].
  intros key' j Hin Hj. specialize (Hlive key' j).
  rewrite Hq in Hlive.
  specialize (Hlive ltac:(by apply list_elem_of_further) ltac:(simpl; lia)).
  unfold cache_getItem in *. rewrite cache_delete_items.
  rewrite lookup_delete_ne; [done|]. by intros <-.
Qed.

(** With the queue's keys live at every reading the loop can make, [set]
    returns. *)
Lemma cache_setAt_returns (fuel : nat) p k (v : V) d now (clock : nat -> Z) :
  NoDup (q_array (keyManager p)) ->
  (forall key (j : nat), key ∈ q_array (keyManager p) ->
     (j < length (q_array (keyManager p)))%nat ->
     is_Some (cache_getItem p (clock j) key)) ->
  (length (q_array (keyManager p)) < fuel)%nat ->
  is_Some (cache_setAt DeepSizeV fuel p k v d now clock).
Proof.
  intros Hnd Hlive Hfuel. unfold cache_setAt.
  assert (forall p1, NoDup (q_array (keyManager p1)) ->
            (forall key (j : nat), key ∈ q_array (keyManager p1) ->
               (j < length (q_array (keyManager p1)))%nat ->
               is_Some (cache_getItem p1 (clock j) key)) ->
            (length (q_array (keyManager p1)) < fuel)%nat ->
            is_Some (match memoryCheckAt fuel p1 clock
                             (calculateItemSize DeepSizeV k v) with
                     | Some (p2, Some err) => Some (p2, Some err)
                     | Some (p2, None) =>
                         Some (writeEntry p2 k v (expirationOf p now d)
                                 (calculateItemSize DeepSizeV k v), None)
                     | None => None
                     end)) as Hmem.
  { intros p1 Hnd1 Hlive1 Hfuel1. unfold memoryCheckAt.
    destruct (decide _); [|eauto].
    destruct (evictLoopAt_returns fuel p1 clock 0
                (Int64.sub (Int64.add (memUsage p1)
                              (calculateItemSize DeepSizeV k v))
                   (MemoryLimit (opt p1))) Hnd1) as [[p2 [err|]] ->];
      eauto.
    intros key j Hin Hj. apply Hlive1; [done|lia]. }
  destruct (capacityCheck_cases p)
    as [Hcap | [[_ Hcap] | (key & rest & Hq & Hcap)]]; rewrite Hcap;
    [by apply Hmem|eauto|].
  rewrite Hq in Hnd, Hfuel. apply NoDup_cons in Hnd as [Hnot Hnd].
  assert (exists rest', q_array (keyManager (cache_delete p key).1) = rest' /\
            rest' ⊆ key :: rest /\ NoDup rest' /\
            (length rest' <= S (length rest))%nat /\
            (forall key', key' ∈ rest' -> items p !! key = None \/ key' <> key))
    as (rest' & Hq' & Hsub & Hnd' & Hlen & Hne).
  { rewrite cache_delete_queue, Hq. destruct (items p !! key) as [item|].
    - exists rest. simpl. rewrite decide_True by done.
      split_and!; [done| |done|lia|].
      + intros x Hx. by apply list_elem_of_further.
      + intros key' Hin. right. by intros ->.
    - exists (key :: rest). split_and!; [done..| |simpl; lia|by left].
      by apply NoDup_cons. }
  apply Hmem; rewrite Hq'; [done| |simpl in Hfuel; lia].
  intros key' j Hin Hj. specialize (Hlive key' j).
  rewrite Hq in Hlive. specialize (Hlive (Hsub _ Hin) ltac:(simpl; lia)).
  unfold cache_getItem in *. rewrite cache_delete_items.
  destruct (Hne key' Hin) as [Hnone|Hneq].
  - by rewrite delete_id.
  - by rewrite lookup_delete_ne.
Qed.
End QueueManager.

(* ------------------------------------------------------------------ *)
(** ** The clock during the loop *)
(* ------------------------------------------------------------------ *)

Section ClockFacts.
Context {V K : Type} `{!KeyManager K}.
Variable DeepSizeV : V -> Z.
Implicit Types (p : cache V K) (k : string) (now d : Z).

(** Under a clock that stands still the loop is [evictLoop]. *)
Lemma evictLoopAt_constant (fuel : nat) p now (i : nat) (r : Z) :
  evictLoopAt fuel p (fun _ => now) i r = evictLoop fuel p now r.
Proof.
  revert p i r. induction fuel as [|fuel IH]; intros p i r; simpl; [done|].
  destruct (decide _); [|done].
  destruct (km_Peek (keyManager p)) as [key [err|]]; [done|].
  destruct (decide _); [done|].
  destruct (cache_getItem p now key); apply IH.
Qed.

Lemma cache_setAt_constant (fuel : nat) p k (v : V) d now :
  cache_setAt DeepSizeV fuel p k v d now (fun _ => now) =
  cache_set DeepSizeV fuel p k v d now.
Proof.
  unfold cache_setAt, cache_set, memoryCheckAt, memoryCheck.
  destruct (capacityCheck p); [|done].
  destruct (decide _); [|done]. by rewrite evictLoopAt_constant.
Qed.
End ClockFacts.

(** X19: [Set] returns, with an error or without one, when [DeepSize]
    returns on the value, the queue has no duplicate, and every key of
    the queue is an entry that [getItem] finds at each reading of the
    clock the loop can make, one reading for each key of the queue.  The
    loop then takes at most as many turns as the queue has keys. *)
Theorem Set_returns_when_queue_stays_live (mapBuckets : Z -> Z)
    (fuelSize fuel : nat) (h : heap) (p : cache value queue) (k : string)
    (v : value) (d now : Z) (clock : nat -> Z) :
  is_Some (DeepSize mapBuckets fuelSize h v) ->
  NoDup (q_array (keyManager p)) ->
  (forall key (j : nat), key ∈ q_array (keyManager p) ->
     (j < length (q_array (keyManager p)))%nat ->
     is_Some (cache_getItem p (clock j) key)) ->
  (length (q_array (keyManager p)) < fuel)%nat ->
  is_Some (cache_SetDeep mapBuckets fuelSize fuel h p k v d now clock).
Proof.
  intros [memVals Hsize] Hnd Hlive Hfuel. unfold cache_SetDeep. rewrite Hsize.
  by apply cache_setAt_returns.
Qed.

(* ------------------------------------------------------------------ *)
(** ** Replace, and more on the estimator *)
(* ------------------------------------------------------------------ *)

Lemma remove_app_l {T : Type} `{EqDecision T} (l l' : list T) (item : T) :
  item ∈ l -> remove (l ++ l') item = remove l item ++ l'.
Proof.
  induction l as [|other rest IH]; intros Hin; simpl.
  - by apply elem_of_nil in Hin.
  - destruct (decide (other = item)); [done|].
    apply elem_of_cons in Hin as [->|Hin]; [done|]. by rewrite IH.
Qed.

Section ReplaceFacts.
Context {V : Type}.
Variable DeepSizeV : V -> Z.
Implicit Types (p : cache V queue) (k : string) (now d : Z).

(** X22: a [Replace] that evicts nothing writes the entry, replaces the
    old size by the new one in the counter, and leaves the key at the
    end of the queue, twice. *)
Theorem Replace_requeues_key (fuel : nat) p k (x : V) d now (item : Item V) :
  cache_getItem p now k = Some item ->
  k ∈ q_array (keyManager p) ->
  q_size (keyManager p) = 0 ->
  ~ (Capacity (opt p) > 0 /\ cache_Size p >= Capacity (opt p)) ->
  ~ (MemoryLimit (opt p) > 0 /\
     Int64.add (memUsage (cache_deductMemUsage p (Mem item)))
       (calculateItemSize DeepSizeV k x) >= MemoryLimit (opt p)) ->
  exists p',
    cache_Replace DeepSizeV fuel p k x d now = Some (p', None) /\
    items p' = <[k := mkItem x (expirationOf p now d)
                         (calculateItemSize DeepSizeV k x)]> (items p) /\
    memUsage p' = Int64.add (memUsage (cache_deductMemUsage p (Mem item)))
                    (calculateItemSize DeepSizeV k x) /\
    q_array (keyManager p') = remove (q_array (keyManager p)) k ++ [k; k].
Proof.
  intros Hget Hin Hsz Hcap Hmem. unfold cache_Replace. rewrite Hget.
  set (p0 := cache_deductMemUsage p (Mem item)) in *.
  assert (opt p0 = opt p /\ items p0 = items p /\ keyManager p0 = keyManager p)
    as (Ho & Hi & Hk).
  { unfold p0, cache_deductMemUsage. by destruct (decide _). }
  rewrite (cache_set_room DeepSizeV fuel p0 k x d now).
  2:{ unfold cache_Size. by rewrite Ho, Hi. }
  2:{ by rewrite Ho. }
  eexists. split; [reflexivity|].
  set (size := calculateItemSize DeepSizeV k x). clearbody size p0.
  cbn [items memUsage keyManager set_keyManager].
  rewrite writeEntry_items, writeEntry_memUsage, writeEntry_keyManager, Hi, Hk.
  assert (expirationOf p0 now d = expirationOf p now d) as ->.
  { unfold expirationOf. by rewrite Ho. }
  split_and!; [done..|].
  change (km_Add (keyManager p) k) with (queue_Add (keyManager p) k).
  rewrite (queue_Add_unbounded (keyManager p) k Hsz).
  change (km_Delete (queue_Enqueue (keyManager p) [k]) k)
    with (queue_Delete (queue_Enqueue (keyManager p) [k]) k).
  change (km_Add ?q k) with (queue_Add q k).
  rewrite queue_Add_unbounded by done. simpl.
  rewrite remove_app_l by done. by rewrite <- app_assoc.
Qed.
End ReplaceFacts.

Section EstimatorExtras.
Variable mapBuckets : Z -> Z.

(** X24: a struct whose fields are neither pointers nor slices weighs
    its own size: strings, maps and nested structs among its fields add
    nothing. *)
Theorem struct_counts_only_pointer_and_slice_fields (fuel : nat) (h : heap)
    (size : Z) (fields : list value) (seen : gset addr) :
  0 <= size < 2 ^ 64 ->
  Forall notChased fields ->
  valueSize mapBuckets (S fuel) h (VStruct size fields) seen = Some (size, seen).
Proof.
  intros Hsize Hall. simpl.
  induction Hall as [|f fields Hf Hall IH]; simpl; [done|].
  replace (fieldSize (valueSize mapBuckets fuel h) h f seen) with (Some (0, seen))
    by (by destruct f).
  replace (Uintptr.add size 0) with size; [done|].
  unfold Uintptr.add, Uintptr.wrap, Uintptr.bits. rewrite Z.add_0_r.
  by rewrite Z.mod_small.
Qed.

Lemma addSizes_app (g : sizer) (vs ws : list value) (base : Z) (seen : gset addr) :
  addSizes g (vs ++ ws) base seen =
    match addSizes g vs base seen with
    | Some (b, s) => addSizes g ws b s
    | None => None
    end.
Proof.
  revert base seen. induction vs as [|v vs IH]; intros base seen; simpl; [done|].
  destruct (g v seen) as [[n s]|]; [apply IH | done].
Qed.

Lemma fields_mark_their_pointers (g : sizer) (h : heap) (fields : list value)
    (base : Z) (seen : gset addr) b s (p : addr) :
  growing g ->
  addSizes (fieldSize g h) fields base seen = Some (b, s) ->
  VPtr p ∈ fields -> p <> 0 -> p ∈ s.
Proof.
  intros Hg. revert base seen.
  induction fields as [|f fields IH]; intros base seen Hsum Hin Hp.
  - by apply elem_of_nil in Hin.
  - simpl in Hsum.
    destruct (fieldSize g h f seen) as [[n s1]|] eqn:Hf; [|discriminate].
    apply elem_of_cons in Hin as [<-|Hin]; [|by eapply IH].
    assert (p ∈ s1) as Hp1.
    { simpl in Hf. destruct (bool_decide (p ∉ seen)) eqn:Hseen; simpl in Hf.
      - rewrite bool_decide_eq_true_2 in Hf by done.
        apply Hg in Hf. set_solver.
      - apply bool_decide_eq_false in Hseen. injection Hf as _ <-.
        by apply dec_stable. }
    apply (addSizes_growing _ _ _ _ _ _ (fieldSize_growing g h Hg)) in Hsum.
    set_solver.
Qed.

(** X25: a pointer field whose target an earlier field of the struct
    points to weighs what a nil pointer weighs. *)
Theorem shared_target_is_counted_once (fuel : nat) (h : heap) (size : Z)
    (fields : list value) (p : addr) (seen : gset addr) :
  VPtr p ∈ fields ->
  valueSize mapBuckets (S fuel) h (VStruct size (fields ++ [VPtr p])) seen =
  valueSize mapBuckets (S fuel) h (VStruct size (fields ++ [VPtr 0])) seen.
Proof.
  intros Hin. simpl. rewrite !addSizes_app.
  destruct (addSizes _ fields size seen) as [[b s]|] eqn:Hsum; [|done].
  destruct (decide (p = 0)) as [->|Hp]; [done|].
  pose proof (fields_mark_their_pointers _ _ _ _ _ _ _ p
                (valueSize_growing mapBuckets fuel h) Hsum Hin Hp) as Hs.
  simpl. rewrite (bool_decide_eq_false_2 (p ∉ s)) by (intros Hn; by apply Hn).
  by rewrite andb_false_r.
Qed.
End EstimatorExtras.

(* ------------------------------------------------------------------ *)
(** ** The theorems of this part, at concrete stores *)
(* ------------------------------------------------------------------ *)


Lemma store_a_consistent (option : Option) (now d : Z) :
  consistent (store_a option now d).
Proof.
  change (store_a option now d)
    with (writeEntry (fresh option) "a"%string val (now + d) 57).
  apply (writeEntry_consistent sizeOf); [apply fresh_consistent|done|lia|].
  vm_compute. discriminate.
Qed.


Lemma Add_refuses_live_key_witness :
  (cache_Get (store_a option128 0 seconds20) 1 "a"%string).2 = Some val /\
  cache_Add sizeOf 1 (store_a option128 0 seconds20) "a"%string (VString 5) 0 1
    = Some (store_a option128 0 seconds20,
            Some "Item a already exists"%string).
Proof.
  assert ((cache_Get (store_a option128 0 seconds20) 1 "a"%string).2 = Some val)
    as Hget by (vm_compute; reflexivity).
  split; [exact Hget|].
  exact (Add_refuses_live_key sizeOf 1 _ _ (VString 5) val 0 1 Hget).
Defined.

Lemma Replace_refuses_missing_key_witness :
  (cache_Get (store_a option128 0 seconds20) 1 "b"%string).2 = None /\
  cache_Replace sizeOf 1 (store_a option128 0 seconds20) "b"%string val 0 1
    = Some (store_a option128 0 seconds20,
            Some "Item b doesn't exist"%string).
Proof.
  assert ((cache_Get (store_a option128 0 seconds20) 1 "b"%string).2 = None)
    as Hget by (vm_compute; reflexivity).
  split; [exact Hget|].
  exact (Replace_refuses_missing_key sizeOf 1 _ _ val 0 1 Hget).
Defined.

Lemma Delete_removes_the_entry_witness :
  items (store_a option128 0 seconds20) !! "a"%string
    = Some (mkItem val (0 + seconds20) 57) /\
  items (cache_Delete (store_a option128 0 seconds20) "a"%string).1
    = delete "a"%string (items (store_a option128 0 seconds20)).
Proof.
  assert (items (store_a option128 0 seconds20) !! "a"%string
          = Some (mkItem val (0 + seconds20) 57)) as Hk
    by (vm_compute; reflexivity).
  split; [exact Hk|]. exact (proj1 (Delete_removes_the_entry _ _ _ Hk)).
Defined.

Lemma Set_then_Get_witness :
  cache_Set sizeOf 1 (fresh option128) "a"%string val seconds20 0
    = Some (store_a option128 0 seconds20, None) /\
  cache_Get (store_a option128 0 seconds20) seconds20 "a"%string
    = (store_a option128 0 seconds20, Some val).
Proof.
  assert (cache_Set sizeOf 1 (fresh option128) "a"%string val seconds20 0
          = Some (store_a option128 0 seconds20, None)) as Hset
    by (vm_compute; reflexivity).
  split; [exact Hset|].
  refine (Set_then_Get sizeOf 1 _ _ _ _ _ _ seconds20 Hset _).
  right. vm_compute. discriminate.
Defined.

Lemma Expired_agrees_with_getItem_witness :
  Item_Expired (mkItem val (0 + 1000000) 57) 1000000000 = true <->
  cache_getItem (store_a option128 0 1000000) 1000000000 "a"%string = None.
Proof.
  refine (proj1 (Expired_agrees_with_getItem (store_a option128 0 1000000)
                   1000000000 "a"%string (mkItem val (0 + 1000000) 57) _ _)).
  - vm_compute. reflexivity.
  - vm_compute. discriminate.
Defined.

Lemma removals_keep_consistency_witness :
  consistent (cache_Delete (store_a option128 0 seconds20) "a"%string).1 /\
  consistent (cache_DeleteExpired (store_a option128 0 seconds20) 5).1.
Proof.
  exact (removals_keep_consistency (store_a option128 0 seconds20) "a"%string 5
           (store_a_consistent option128 0 seconds20)).
Defined.

Lemma Set_of_new_key_keeps_consistency_witness :
  cache_Set sizeOf 1 (store_a option128 0 seconds20) "b"%string val seconds20 1
    <> None /\
  forall p' e,
    cache_Set sizeOf 1 (store_a option128 0 seconds20) "b"%string val seconds20 1
      = Some (p', e) -> consistent p'.
Proof.
  split; [vm_compute; discriminate|].
  intros p' e.
  refine (Set_of_new_key_keeps_consistency sizeOf 1
            (store_a option128 0 seconds20) "b"%string val seconds20 1 p' e
            (store_a_consistent option128 0 seconds20) _ _ _).
  - vm_compute. reflexivity.
  - vm_compute. discriminate.
  - vm_compute. discriminate.
Defined.

Lemma Set_within_limit_when_accounted_witness :
  cache_Set sizeOf 1 (store_a option128 0 seconds20) "b"%string val seconds20 1
    = Some (writeEntry (store_a option128 0 seconds20) "b"%string val
              (1 + seconds20) 57, None) /\
  cache_Alloc (writeEntry (store_a option128 0 seconds20) "b"%string val
                 (1 + seconds20) 57) <= 128.
Proof.
  assert (cache_Set sizeOf 1 (store_a option128 0 seconds20) "b"%string val
            seconds20 1
          = Some (writeEntry (store_a option128 0 seconds20) "b"%string val
                    (1 + seconds20) 57, None)) as Hset
    by (vm_compute; reflexivity).
  split; [exact Hset|].
  refine (Set_within_limit_when_accounted sizeOf 1 _ _ _ _ _ _
            (proj1 (store_a_consistent option128 0 seconds20)) _ _ _ Hset).
  - vm_compute. split; [reflexivity | discriminate].
  - vm_compute. discriminate.
  - vm_compute. discriminate.
Defined.

Lemma Set_oversized_into_fresh_witness :
  0 < MemoryLimit option128 < calculateItemSize sizeOf "b"%string (VString 200) /\
  cache_Set sizeOf 1 (fresh option128) "b"%string (VString 200) seconds20 0
    = Some (fresh option128, Some errEmptyQueue).
Proof.
  assert (0 < MemoryLimit option128
            < calculateItemSize sizeOf "b"%string (VString 200)) as Hsize
    by (vm_compute; split; reflexivity).
  split; [exact Hsize|].
  exact (Set_oversized_into_fresh sizeOf 0 option128 "b"%string (VString 200)
           seconds20 0 Hsize).
Defined.

Lemma Set_never_returns_on_dead_front_witness :
  cache_getItem store_stale 2 "a"%string = None /\
  cache_Set sizeOf 1000 store_stale "b"%string (VString 100) seconds20 2 = None.
Proof.
  assert (cache_getItem store_stale 2 "a"%string = None) as Hdead
    by (vm_compute; reflexivity).
  split; [exact Hdead|].
  refine (Set_never_returns_on_dead_front sizeOf 1000 store_stale "b"%string
            (VString 100) seconds20 2 "a"%string _ _ _ _ _ _ Hdead).
  - vm_compute. intros [H _]. discriminate H.
  - vm_compute. reflexivity.
  - vm_compute. reflexivity.
  - vm_compute. discriminate.
  - vm_compute. reflexivity.
  - discriminate.
Defined.

Lemma Set_returns_when_queue_stays_live_witness :
  is_Some (cache_SetDeep exactBuckets 1 2 empty_heap
             (store_a option128 0 seconds20) "b"%string (VString 50)
             seconds20 1 (fun i => 2 + Z.of_nat i)).
Proof.
  refine (Set_returns_when_queue_stays_live exactBuckets 1 2 empty_heap
            (store_a option128 0 seconds20) "b"%string (VString 50) seconds20
            1 (fun i => 2 + Z.of_nat i) _ _ _ _).
  - vm_compute. eauto.
  - apply NoDup_singleton.
  - intros key j ->%list_elem_of_singleton Hj.
    destruct j as [|j]; [vm_compute; eauto|simpl in Hj; lia].
  - simpl. lia.
Defined.

Lemma noop_Set_fails_when_memory_is_short_witness :
  cache_Set sizeOf 1 store_noop "3"%string val seconds20 0
    = Some (store_noop, Some "invalid key"%string).
Proof.
  refine (noop_Set_fails_when_memory_is_short sizeOf 0 store_noop "3"%string val
            seconds20 0 _ _ _ _).
  - vm_compute. intros [H _]. discriminate H.
  - vm_compute. reflexivity.
  - vm_compute. reflexivity.
  - vm_compute. discriminate.
Defined.

Lemma New_initData_is_not_tracked_witness :
  New optionCap2 initData2
    = inl (mkCache optionCap2 initData2 false 0 (NewQueue 0)) /\
  cache_Set sizeOf 1 (mkCache optionCap2 initData2 false 0 (NewQueue 0))
    "z"%string val seconds20 0
    = Some (mkCache optionCap2 initData2 false 0 (NewQueue 0), Some errEmptyQueue).
Proof.
  assert (New optionCap2 initData2
          = inl (mkCache optionCap2 initData2 false 0 (NewQueue 0))) as Hnew
    by reflexivity.
  split; [exact Hnew|].
  destruct (New_initData_is_not_tracked sizeOf optionCap2 initData2 _ Hnew)
    as (_ & _ & _ & Hset).
  apply Hset; vm_compute; [reflexivity | discriminate].
Defined.

Lemma Replace_requeues_key_witness :
  exists p',
    cache_Replace sizeOf 1 (store_a option128 0 seconds20) "a"%string
      (VString 5) seconds20 1 = Some (p', None) /\
    q_array (keyManager p') = ["a"; "a"]%string.
Proof.
  destruct (Replace_requeues_key sizeOf 1 (store_a option128 0 seconds20)
              "a"%string (VString 5) seconds20 1 (mkItem val (0 + seconds20) 57))
    as (p' & Hrep & _ & _ & Hq).
  - vm_compute. reflexivity.
  - apply list_elem_of_here.
  - reflexivity.
  - vm_compute. intros [H _]. discriminate H.
  - vm_compute. intros [_ H]. by apply H.
  - exists p'. split; [exact Hrep|]. rewrite Hq. vm_compute. reflexivity.
Defined.

Lemma struct_counts_only_pointer_and_slice_fields_witness :
  valueSize exactBuckets 1 empty_heap
    (VStruct 40 [VString 1000; VOther 8; VMap 8 8 0]) ∅ = Some (40, ∅).
Proof.
  refine (struct_counts_only_pointer_and_slice_fields exactBuckets 0 empty_heap
            40 [VString 1000; VOther 8; VMap 8 8 0] ∅ _ _).
  - lia.
  - repeat constructor.
Defined.

Lemma shared_target_is_counted_once_witness :
  valueSize exactBuckets 3 h_cycle (VStruct 16 ([VPtr 4096] ++ [VPtr 4096])) ∅ =
  valueSize exactBuckets 3 h_cycle (VStruct 16 ([VPtr 4096] ++ [VPtr 0])) ∅.
Proof.
  refine (shared_target_is_counted_once exactBuckets 2 h_cycle 16 [VPtr 4096]
            4096 ∅ _).
  apply list_elem_of_here.
Defined.

(* ------------------------------------------------------------------ *)
(** ** Callbacks, and what entries and slices cost *)
(* ------------------------------------------------------------------ *)

Section More.
Context {V K : Type} `{!KeyManager K}.
Variable DeepSizeV : V -> Z.
Implicit Types (p : cache V K) (k : string) (now d : Z).

(** X8: [Delete] twice is [Delete] once: the second call finds no
    entry, changes nothing and calls no callback. *)
Theorem Delete_is_idempotent p k :
  cache_Delete (cache_Delete p k).1 k = ((cache_Delete p k).1, None).
Proof.
  assert (items (cache_Delete p k).1 !! k = None) as Hk.
  { unfold cache_Delete. pose proof (cache_delete_items p k) as Hd.
    destruct (cache_delete p k) as [p1 [ov ev]]. simpl in *.
    rewrite Hd. apply lookup_delete_eq. }
  generalize dependent (cache_Delete p k).1. intros p1 Hk.
  unfold cache_Delete, cache_delete. by rewrite Hk.
Qed.

Lemma cache_delete_onEvicted p k : onEvicted (cache_delete p k).1 = onEvicted p.
Proof.
  unfold cache_delete. destruct (items p !! k); [|done]. simpl.
  unfold cache_deductMemUsage. by destruct (decide _).
Qed.

Lemma expire_notifications now (l : list (string * Item V))
    (acc : cache V K * list (string * option V)) :
  NoDup l.*1 ->
  (forall k v, (k, v) ∈ l -> items acc.1 !! k = Some v) ->
  (foldl (expireStep now) acc l).2 =
    acc.2 ++
    (if onEvicted acc.1
     then (fun kv => (kv.1, Some (Object kv.2))) <$>
            filter (fun kv => Expiration kv.2 > 0 /\ now > Expiration kv.2) l
     else []).
Proof.
  revert acc. induction l as [|[k v] l IH]; intros acc Hnd Hin; simpl.
  - destruct (onEvicted acc.1); by rewrite app_nil_r.
  - apply NoDup_cons in Hnd as [Hk Hnd].
    assert (forall k' v', (k', v') ∈ l -> k' <> k) as Hne.
    { intros k' v' Hl ->. apply Hk. apply list_elem_of_fmap.
      by exists (k, v'). }
    rewrite IH; [|done|].
    + unfold expireStep. simpl. rewrite filter_cons. simpl.
      destruct (decide _) as [He|He].
      * pose proof (cache_delete_onEvicted acc.1 k) as Hon.
        unfold cache_delete in *. rewrite (Hin k v) in * by apply list_elem_of_here.
        simpl in *. rewrite Hon.
        destruct (onEvicted acc.1); simpl; [|done].
        by rewrite <- app_assoc.
      * done.
    + intros k' v' Hl. unfold expireStep. simpl.
      destruct (decide _).
      * pose proof (cache_delete_items acc.1 k) as Hd.
        destruct (cache_delete acc.1 k) as [p1 [ov ev]]. simpl in *.
        rewrite Hd, lookup_delete_ne by (intros ->; by eapply Hne).
        apply Hin. by apply list_elem_of_further.
      * apply Hin. by apply list_elem_of_further.
Qed.

(** X26: [DeleteExpired] hands the callback the entries it removed, in
    the order it met them, when a callback is set, and makes no call
    otherwise. *)
Theorem DeleteExpired_notifies_the_removed p now :
  (cache_DeleteExpired p now).2 =
    if onEvicted p
    then (fun kv => (kv.1, Some (Object kv.2))) <$>
           filter (fun kv => Expiration kv.2 > 0 /\ now > Expiration kv.2)
             (map_to_list (items p))
    else [].
Proof.
  unfold cache_DeleteExpired. rewrite expire_notifications.
  - done.
  - apply NoDup_fst_map_to_list.
  - intros k v Hin. by apply elem_of_map_to_list.
Qed.

(** X27: an entry costs the length of its key, the estimated size of its
    value, and 24 bytes (string header and one pointer). *)
Theorem item_cost (k : string) (v : V) :
  0 <= DeepSizeV v ->
  Z.of_nat (String.length k) + DeepSizeV v + 24 <= Int64.max_int ->
  calculateItemSize DeepSizeV k v =
    Z.of_nat (String.length k) + DeepSizeV v + 24.
Proof.
  intros Hv Hsum. unfold calculateItemSize, DeepSize_string.
  assert (PtrSize = 8) as -> by reflexivity.
  unfold Int64.max_int in Hsum.
  unfold Uintptr.add, Uintptr.wrap, Uintptr.bits.
  rewrite Z.mod_small by lia.
  rewrite (Int64_wrap_id (2 * 8 + _)).
  2:{ unfold Int64.in_range, Int64.min_int, Int64.max_int. lia. }
  rewrite (Int64_add_exact (2 * 8 + _) (DeepSizeV v)).
  2:{ unfold Int64.in_range, Int64.min_int, Int64.max_int. lia. }
  rewrite Int64_add_exact; [lia|].
  unfold Int64.in_range, Int64.min_int, Int64.max_int. lia.
Qed.
End More.

Section Slices.
Variable mapBuckets : Z -> Z.

Lemma addSizes_scalars (g : sizer) (e : Z) (vs : list value) (base : Z)
    (seen : gset addr) :
  (forall s, g (VOther e) s = Some (e, s)) ->
  Forall (fun v => v = VOther e) vs ->
  0 <= e -> 0 <= base ->
  base + Z.of_nat (length vs) * e < 2 ^ 64 ->
  addSizes g vs base seen = Some (base + Z.of_nat (length vs) * e, seen).
Proof.
  intros Hg Hall He. revert base.
  induction Hall as [|v vs -> Hall IH]; intros base Hb Hsum; simpl.
  - f_equal. f_equal. lia.
  - rewrite Hg. simpl length in Hsum.
    assert (Uintptr.add base e = base + e) as ->.
    { unfold Uintptr.add, Uintptr.wrap, Uintptr.bits. apply Z.mod_small. nia. }
    rewrite IH by nia. f_equal. f_equal. lia.
Qed.

(** X28: a slice of [n] scalars of size [e] with capacity [cap] weighs
    the slice header, the elements, and 24 bytes (the size of a slice
    header, not of an element) for each unused slot. *)
Theorem slice_of_scalars (fuel : nat) (h : heap) (arr : addr) (n cap e : Z)
    (seen : gset addr) :
  0 <= e -> 0 <= n <= cap ->
  Forall (fun v => v = VOther e) (indexOf h arr n) ->
  length (indexOf h arr n) = Z.to_nat n ->
  24 + n * e + 24 * (cap - n) < 2 ^ 64 ->
  valueSize mapBuckets (S (S fuel)) h (VSlice arr n cap) seen =
    Some (24 + n * e + 24 * (cap - n), seen).
Proof.
  intros He Hn Hall Hlen Hsum.
  cbn [valueSize]. assert (typeSize (VSlice arr n cap) = 24) as -> by reflexivity.
  rewrite (addSizes_scalars _ e); [|done..| |].
  - rewrite Hlen, Z2Nat.id by lia.
    destruct (decide (cap > n)).
    + f_equal. f_equal.
      unfold Uintptr.add, Uintptr.mul, Uintptr.wrap, Uintptr.bits.
      rewrite (Z.mod_small (cap - n)) by nia.
      rewrite (Z.mod_small (24 * _)) by nia.
      apply Z.mod_small. nia.
    + f_equal. f_equal. assert (cap = n) as -> by lia. lia.
  - lia.
  - rewrite Hlen, Z2Nat.id by lia. nia.
Qed.
End Slices.

Lemma item_cost_witness :
  0 <= sizeOf val /\
  calculateItemSize sizeOf "1"%string val = 57.
Proof.
  assert (0 <= sizeOf val) as Hv by (vm_compute; discriminate).
  split; [exact Hv|].
  refine (item_cost sizeOf "1"%string val Hv _). vm_compute. discriminate.
Defined.

Lemma slice_of_scalars_witness :
  valueSize exactBuckets 2 h_bytes (VSlice 4096 3 1024) ∅
    = Some (24 + 3 * 1 + 24 * (1024 - 3), ∅).
Proof.
  refine (slice_of_scalars exactBuckets 0 h_bytes 4096 3 1024 1 ∅ _ _ _ _ _).
  - lia.
  - lia.
  - vm_compute. repeat constructor.
  - vm_compute. reflexivity.
  - vm_compute. reflexivity.
Defined.
